(** * pypgen: a shallow embedding of the parser combinators of [pypgen.py]

    The Python module defines two result classes ([Success], [Failure]),
    a base class [Parser] with the builder methods [then], [oor] and [w],
    and six parser classes.  Parsers are embedded as an inductive type and
    [parse] as a function on it.  Two things in Python are not plain
    functions of the input and are made explicit here:

    - the [while] loop of [KleeneParser.parse] need not stop, so [parse]
      takes a bound on the number of iterations of that loop and answers
      [OutOfFuel] when the bound is hit;
    - the callable handed to [w] may raise, so it is a partial function and
      [parse] answers [Raised] when it raises.

    Python's [re] module is not part of the repository: the generic
    development takes it as a parameter, and a model of a fragment of it is
    used for the one scenario that needs a concrete pattern. *)

From Stdlib Require Import String Ascii List Arith ZArith Bool Lia.
Set Warnings "-register-all".
Import ListNotations.
Local Open Scope string_scope.

(* ================================================================== *)
(** ** Python strings *)

(** [in_str[:n]] for [n >= 0]. *)
Fixpoint slice_to (n : nat) (s : string) : string :=
  match n, s with
  | S n', String c s' => String c (slice_to n' s')
  | _, _ => EmptyString
  end.

(** [in_str[n:]] for [n >= 0]. *)
Fixpoint slice_from (n : nat) (s : string) : string :=
  match n, s with
  | S n', String c s' => slice_from n' s'
  | _, _ => s
  end.

(** [in_str[i:j]] for [0 <= i], [0 <= j]. *)
Definition slice (i j : nat) (s : string) : string :=
  slice_to (j - i) (slice_from i s).

(** [in_str.startswith(s)]. *)
Fixpoint startswith (in_str s : string) {struct s} : bool :=
  match s with
  | EmptyString => true
  | String c s' =>
      match in_str with
      | String d in_str' => Ascii.eqb c d && startswith in_str' s'
      | EmptyString => false
      end
  end.

(** [rest] is what is left of [input] once some characters have been
    taken from its front. *)
Definition is_suffix (rest input : string) : Prop :=
  exists consumed : string, input = consumed ++ rest.

(* ================================================================== *)
(** ** Python values and the two result classes *)

(** The values the parsers of the module produce: matched text, the
    tuple of a sequence, the list of a repetition, and integers for the
    [int] transformation. *)
Inductive Value : Type :=
| VStr (s : string)
| VInt (z : Z)
| VTuple (vs : list Value)
| VList (vs : list Value).

(** The [expected] field of a [Failure]: a string for the literal and the
    regex parser, a list of strings for [OrParser]. *)
Inductive Expected : Type :=
| EStr (s : string)
| EList (l : list string).

(** [class Success] and [class Failure]. *)
Inductive Result : Type :=
| Success (value : Value) (rest : string)
| Failure (expected : Expected) (rest : string).

Definition Result_rest (r : Result) : string :=
  match r with
  | Success _ rest => rest
  | Failure _ rest => rest
  end.

(** What a call does: it returns, it raises, or the bound on loop
    iterations was reached before it returned. *)
Inductive Run (A : Type) : Type :=
| Returned (a : A)
| Raised
| OutOfFuel.
Arguments Returned {A} a.
Arguments Raised {A}.
Arguments OutOfFuel {A}.

Definition bind {A B : Type} (m : Run A) (k : A -> Run B) : Run B :=
  match m with
  | Returned a => k a
  | Raised => Raised
  | OutOfFuel => OutOfFuel
  end.

Notation "x <- m ;; k" := (bind m (fun x => k))
  (at level 61, m at next level, right associativity).

(** A callable given to [w]: [None] when the call raises. *)
Definition Trans : Type := Value -> option Value.

(* ================================================================== *)
(** ** A model of a fragment of Python's [re] *)

Module PyRe.

(** Patterns of the fragment: a sequence of single-character atoms
    (an ordinary character, [.], or a class [[...]] of characters and
    ranges, possibly negated), each with an optional greedy [*], [+]
    or [?]. *)
Inductive atom : Type :=
| AChar (c : ascii)
| AAny
| AClass (negated : bool) (ranges : list (ascii * ascii)).

Inductive quant : Type := QOne | QStar | QPlus | QOpt.

Record Regex : Type := mkRegex {
  pattern : string;
  items : list (atom * quant)
}.

Definition in_range (c : ascii) (r : ascii * ascii) : bool :=
  Nat.leb (nat_of_ascii (fst r)) (nat_of_ascii c) &&
  Nat.leb (nat_of_ascii c) (nat_of_ascii (snd r)).

Definition atom_matches (a : atom) (c : ascii) : bool :=
  match a with
  | AChar d => Ascii.eqb c d
  | AAny => negb (Ascii.eqb c "010"%char)
  | AClass negated ranges => xorb negated (existsb (in_range c) ranges)
  end.

(** Characters with a meaning of their own in a pattern. *)
Definition is_special (c : ascii) : bool :=
  existsb (Ascii.eqb c)
    [ "."; "^"; "$"; "*"; "+"; "?"; "{"; "}"; "["; "]"; "\"; "|"; "("; ")" ]%char.

(** The body of a class, after the opening bracket and an optional [^],
    up to the closing bracket: single characters and ranges [c-d]. *)
Fixpoint compile_class (s : string) (acc : list (ascii * ascii))
  : option (list (ascii * ascii) * string) :=
  match s with
  | EmptyString => None
  | String c s1 =>
      if Ascii.eqb c "]"%char then
        match acc with [] => None | _ => Some (acc, s1) end
      else if Ascii.eqb c "\"%char || Ascii.eqb c "["%char then None
      else
        match s1 with
        | String "-"%char (String d s2) =>
            if Ascii.eqb d "]"%char
            then Some ((acc ++ [(c, c); ("-", "-")%char])%list, s2)
            else if Ascii.eqb d "\"%char || Ascii.eqb d "["%char then None
            else if Nat.leb (nat_of_ascii c) (nat_of_ascii d)
                 then compile_class s2 (acc ++ [(c, d)])%list
                 else None
        | _ => compile_class s1 (acc ++ [(c, c)])%list
        end
  end.

(** One atom at the front of a pattern. *)
Definition compile_atom (s : string) : option (atom * string) :=
  match s with
  | EmptyString => None
  | String c s1 =>
      if Ascii.eqb c "."%char then Some (AAny, s1)
      else if Ascii.eqb c "["%char then
        match s1 with
        | String "^"%char s2 =>
            match compile_class s2 [] with
            | Some (ranges, s3) => Some (AClass true ranges, s3)
            | None => None
            end
        | _ =>
            match compile_class s1 [] with
            | Some (ranges, s3) => Some (AClass false ranges, s3)
            | None => None
            end
        end
      else if is_special c then None
      else Some (AChar c, s1)
  end.

(** An optional quantifier after an atom. *)
Definition compile_quant (s : string) : quant * string :=
  match s with
  | String "*"%char s1 => (QStar, s1)
  | String "+"%char s1 => (QPlus, s1)
  | String "?"%char s1 => (QOpt, s1)
  | _ => (QOne, s)
  end.

(** The items of a pattern; [fuel] bounds the number of items. *)
Fixpoint compile_items (fuel : nat) (s : string) : option (list (atom * quant)) :=
  match s with
  | EmptyString => Some []
  | _ =>
      match fuel with
      | 0 => None
      | S fuel' =>
          match compile_atom s with
          | None => None
          | Some (a, s1) =>
              let (q, s2) := compile_quant s1 in
              match compile_items fuel' s2 with
              | Some its => Some ((a, q) :: its)
              | None => None
              end
          end
      end
  end.

(** [re.compile(regex_str)]: [None] for a pattern outside the fragment
    (Python raises for a malformed one). *)
Definition compile (regex_str : string) : option Regex :=
  match compile_items (String.length regex_str) regex_str with
  | Some its => Some (mkRegex regex_str its)
  | None => None
  end.

(** Greedy matching with backtracking at the front of [s]; the answer
    is the number of characters matched. *)
Fixpoint match_items (its : list (atom * quant)) (s : string) : option nat :=
  match its with
  | [] => Some 0
  | (a, q) :: its' =>
      let star :=
        fix star (s : string) : option nat :=
          match s with
          | String c s' =>
              if atom_matches a c then
                match star s' with
                | Some n => Some (S n)
                | None => match_items its' s
                end
              else match_items its' s
          | EmptyString => match_items its' s
          end in
      match q with
      | QStar => star s
      | QOne =>
          match s with
          | String c s' =>
              if atom_matches a c then option_map S (match_items its' s') else None
          | EmptyString => None
          end
      | QPlus =>
          match s with
          | String c s' =>
              if atom_matches a c then option_map S (star s') else None
          | EmptyString => None
          end
      | QOpt =>
          match s with
          | String c s' =>
              if atom_matches a c then
                match match_items its' s' with
                | Some n => Some (S n)
                | None => match_items its' s
                end
              else match_items its' s
          | EmptyString => match_items its' s
          end
      end
  end.

(** A match starting exactly at index [pos] of [s]; the answer is the
    index at which the match ends. *)
Definition match_at (regex : Regex) (s : string) (pos : nat) : option nat :=
  if Nat.leb pos (String.length s) then
    option_map (Nat.add pos) (match_items (items regex) (slice_from pos s))
  else None.

End PyRe.

(* ================================================================== *)
(** ** Python's [int] *)

Definition is_digit (c : ascii) : bool :=
  Nat.leb 48 (nat_of_ascii c) && Nat.leb (nat_of_ascii c) 57.

Definition is_space (c : ascii) : bool :=
  existsb (Ascii.eqb c) [ " "; "009"; "010"; "011"; "012"; "013" ]%char.

Fixpoint lstrip (l : list ascii) : list ascii :=
  match l with
  | c :: l' => if is_space c then lstrip l' else l
  | [] => []
  end.

Definition strip (l : list ascii) : list ascii :=
  rev (lstrip (rev (lstrip l))).

Fixpoint digits_value (acc : Z) (l : list ascii) : option Z :=
  match l with
  | [] => Some acc
  | c :: l' =>
      if is_digit c
      then digits_value (10 * acc + Z.of_nat (nat_of_ascii c - 48)) l'
      else None
  end.

Definition unsigned_value (l : list ascii) : option Z :=
  match l with
  | [] => None
  | _ => digits_value 0 l
  end.

(** [int(s)] for a string in base 10: surrounding white space and one
    sign are accepted, anything else raises. *)
Definition int_of_string (s : string) : option Z :=
  match strip (list_ascii_of_string s) with
  | "-"%char :: l => option_map Z.opp (unsigned_value l)
  | "+"%char :: l => unsigned_value l
  | l => unsigned_value l
  end.

(** The builtin [int] used as a transformation. *)
Definition int : Trans := fun v =>
  match v with
  | VInt z => Some (VInt z)
  | VStr s => option_map VInt (int_of_string s)
  | VTuple _ | VList _ => None
  end.

(* ================================================================== *)
(** ** What the module takes from Python *)

(** The [re] module: compiled patterns, [re.compile] ([None] when it
    raises), the [pattern] attribute, and the matcher.
    [re_match_at regex s pos] is the index at which a match of [regex]
    that starts exactly at index [pos] of [s] ends, if there is one. *)
Class ReEngine : Type := {
  Regex : Type;
  re_compile : string -> option Regex;
  re_pattern : Regex -> string;
  re_match_at : Regex -> string -> nat -> option nat
}.

(** A match object: the string searched and the span matched. *)
Record Match : Type := mkMatch {
  m_string : string;
  m_start : nat;
  m_end : nat
}.

(** [match.group()] and [match.end()]. *)
Definition Match_group (m : Match) : string :=
  slice (m_start m) (m_end m) (m_string m).

Definition Match_end (m : Match) : nat := m_end m.

Section Parsers.

Context {RE : ReEngine}.

(** [regex.match(in_str)]: a match at the beginning of the string. *)
Definition Regex_match (regex : Regex) (in_str : string) : option Match :=
  match re_match_at regex in_str 0 with
  | Some e => Some (mkMatch in_str 0 e)
  | None => None
  end.

(** [regex.search(in_str)], which the module does not call: the first
    index, from [pos] on and among [n + 1] of them, with a match. *)
Fixpoint Regex_search_from (regex : Regex) (in_str : string) (n pos : nat)
  : option Match :=
  match re_match_at regex in_str pos with
  | Some e => Some (mkMatch in_str pos e)
  | None =>
      match n with
      | 0 => None
      | S n' => Regex_search_from regex in_str n' (S pos)
      end
  end.

Definition Regex_search (regex : Regex) (in_str : string) : option Match :=
  Regex_search_from regex in_str (String.length in_str) 0.

(** The parser classes; the fields are those set by [__init__]. *)
Inductive Parser : Type :=
| ResultTransformingParser (parser : Parser) (trans : Trans)
| SeqParser (parsers : list Parser)
| OrParser (parsers : list Parser)
| KleeneParser (parser : Parser)
| RegexParser (regex : Regex)
| LiteralParser (s : string).

(** [RegexParser.__init__] compiles its argument. *)
Definition new_RegexParser (regex_str : string) : option Parser :=
  option_map RegexParser (re_compile regex_str).

(** Renderings left to Python: [str] of a callable, [%s] of a list of
    strings, and the default [str] of an instance of a class without
    [__str__]. *)
Class PyStr : Type := {
  trans_str : Trans -> string;
  list_str : list string -> string;
  object_str : Parser -> string
}.

Context {PS : PyStr}.

(** The [__str__] methods; [OrParser] has none. *)
Fixpoint Parser_str (self : Parser) : string :=
  match self with
  | ResultTransformingParser parser trans =>
      "ResultTransformingParser(" ++ Parser_str parser ++ ", "
        ++ trans_str trans ++ ")"
  | SeqParser parsers => "SeqParser(" ++ list_str (map Parser_str parsers) ++ ")"
  | OrParser parsers => object_str self
  | KleeneParser parser => "KleeneParser(" ++ Parser_str parser ++ ")"
  | RegexParser regex => "RegexParser(" ++ re_pattern regex ++ ")"
  | LiteralParser s => "LiteralParser(" ++ s ++ ")"
  end.

(** *** The [parse] methods

    The methods of the classes with children take the [parse] of their
    children as an argument; [Parser_parse] below ties the knot. *)

Definition ResultTransformingParser_parse
    (parser_parse : string -> Run Result) (trans : Trans) (in_str : string)
  : Run Result :=
  result <- parser_parse in_str ;;
  match result with
  | Failure _ _ => Returned result
  | Success value rest =>
      match trans value with
      | Some value' => Returned (Success value' rest)
      | None => Raised
      end
  end.

(** The [for] loop of [SeqParser.parse], from the state reached after
    some of the parsers. *)
Definition SeqParser_for (child_parse : Parser -> string -> Run Result)
  : list Parser -> list Value -> string -> Run Result :=
  fix loop (parsers : list Parser) (result_values : list Value)
           (in_str_rest : string) : Run Result :=
    match parsers with
    | [] => Returned (Success (VTuple result_values) in_str_rest)
    | parser :: parsers' =>
        result <- child_parse parser in_str_rest ;;
        match result with
        | Failure _ _ => Returned result
        | Success value rest =>
            loop parsers' (result_values ++ [value])%list rest
        end
    end.

Definition SeqParser_parse (child_parse : Parser -> string -> Run Result)
    (parsers : list Parser) (in_str : string) : Run Result :=
  SeqParser_for child_parse parsers [] in_str.

(** The [for] loop of [OrParser.parse]; [self_parsers] is the whole
    tuple, used once the loop has fallen through. *)
Definition OrParser_for (child_parse : Parser -> string -> Run Result)
    (self_parsers : list Parser) (in_str : string)
  : list Parser -> Run Result :=
  fix loop (parsers : list Parser) : Run Result :=
    match parsers with
    | [] => Returned (Failure (EList (map Parser_str self_parsers)) in_str)
    | parser :: parsers' =>
        result <- child_parse parser in_str ;;
        match result with
        | Success _ _ => Returned result
        | Failure _ _ => loop parsers'
        end
    end.

Definition OrParser_parse (child_parse : Parser -> string -> Run Result)
    (parsers : list Parser) (in_str : string) : Run Result :=
  OrParser_for child_parse parsers in_str parsers.

(** The [while] loop of [KleeneParser.parse], from the state
    ([results], [result]); at most [n] more iterations are run. *)
Definition KleeneParser_while (parser_parse : string -> Run Result)
  : nat -> list Value -> Result -> Run Result :=
  fix while (n : nat) (results : list Value) (result : Result) : Run Result :=
    match result with
    | Success value rest =>
        match n with
        | 0 => OutOfFuel
        | S n' =>
            result' <- parser_parse rest ;;
            while n' (results ++ [value])%list result'
        end
    | Failure _ rest => Returned (Success (VList results) rest)
    end.

Definition KleeneParser_parse (parser_parse : string -> Run Result)
    (fuel : nat) (in_str : string) : Run Result :=
  result <- parser_parse in_str ;;
  KleeneParser_while parser_parse fuel [] result.

Definition RegexParser_parse (regex : Regex) (in_str : string) : Run Result :=
  match Regex_match regex in_str with
  | Some m => Returned (Success (VStr (Match_group m))
                                (slice_from (Match_end m) in_str))
  | None => Returned (Failure (EStr (re_pattern regex)) in_str)
  end.

Definition LiteralParser_parse (s : string) (in_str : string) : Run Result :=
  if startswith in_str s
  then Returned (Success (VStr (slice_to (String.length s) in_str))
                         (slice_from (String.length s) in_str))
  else Returned (Failure (EStr s) in_str).

(** [self.parse(in_str)], with every [while] loop cut after [fuel]
    iterations. *)
Fixpoint Parser_parse (fuel : nat) (self : Parser) (in_str : string)
  {struct self} : Run Result :=
  match self with
  | ResultTransformingParser parser trans =>
      ResultTransformingParser_parse (Parser_parse fuel parser) trans in_str
  | SeqParser parsers => SeqParser_parse (Parser_parse fuel) parsers in_str
  | OrParser parsers => OrParser_parse (Parser_parse fuel) parsers in_str
  | KleeneParser parser => KleeneParser_parse (Parser_parse fuel parser) fuel in_str
  | RegexParser regex => RegexParser_parse regex in_str
  | LiteralParser s => LiteralParser_parse s in_str
  end.

(** *** The builder methods *)

(** [Parser.then], [Parser.oor] and [Parser.w] of the base class. *)
Definition Parser_then (self next_parser : Parser) : Parser :=
  SeqParser [self; next_parser].

Definition Parser_oor (self alt_parser : Parser) : Parser :=
  OrParser [self; alt_parser].

Definition w (self : Parser) (trans : Trans) : Parser :=
  ResultTransformingParser self trans.

(** [SeqParser.then] and [OrParser.oor] override them, and take any
    number of parsers. *)
Definition SeqParser_then (self_parsers parsers : list Parser) : Parser :=
  SeqParser (self_parsers ++ parsers)%list.

Definition OrParser_oor (self_parsers parsers : list Parser) : Parser :=
  OrParser (self_parsers ++ parsers)%list.

(** [self.then(next_parser)] and [self.oor(alt_parser)], by the class
    of [self]. *)
Definition then_ (self next_parser : Parser) : Parser :=
  match self with
  | SeqParser self_parsers => SeqParser_then self_parsers [next_parser]
  | _ => Parser_then self next_parser
  end.

Definition oor (self alt_parser : Parser) : Parser :=
  match self with
  | OrParser self_parsers => OrParser_oor self_parsers [alt_parser]
  | _ => Parser_oor self alt_parser
  end.

(** *** The functions of the module *)

Definition parse (fuel : nat) (parser : Parser) (in_str : string) : Run Result :=
  Parser_parse fuel parser in_str.

Definition r (regex_str : string) : option Parser := new_RegexParser regex_str.

Definition rep (parser : Parser) : Parser := KleeneParser parser.

Definition l (s : string) : Parser := LiteralParser s.

End Parsers.

(* ================================================================== *)
(** ** Instances used by the scenarios *)

(** The fragment of [re] above as the engine. *)
#[export] Instance PyRe_engine : ReEngine := {|
  Regex := PyRe.Regex;
  re_compile := PyRe.compile;
  re_pattern := PyRe.pattern;
  re_match_at := PyRe.match_at
|}.

(** One choice of renderings: items between quotes and separated by
    commas for a list, fixed texts for callables and instances. *)
Fixpoint join_quoted (l : list string) : string :=
  match l with
  | [] => ""
  | [x] => "'" ++ x ++ "'"
  | x :: l' => "'" ++ x ++ "', " ++ join_quoted l'
  end.

#[export] Instance Plain_str {RE : ReEngine} : PyStr := {|
  trans_str := fun _ => "<function>";
  list_str := fun l => "[" ++ join_quoted l ++ "]";
  object_str := fun _ => "<pypgen.OrParser instance>"
|}.

(** A parser whose [parse] returns on no input: the repetition of the
    empty literal. *)
Definition never_returns {RE : ReEngine} : Parser := rep (l "").

(** The grammar of the end-to-end scenario, [None] if the pattern does
    not compile. *)
Definition scenario_grammar : option (@Parser PyRe_engine) :=
  match r "[0-9]+" with
  | Some digits => Some (then_ (then_ (l "(") (rep (w digits int))) (l ")"))
  | None => None
  end.

(** The compiled pattern ["b"], which matches in ["ab"] at index 1 only. *)
Definition regex_b : @Regex PyRe_engine :=
  PyRe.mkRegex "b" [(PyRe.AChar "b", PyRe.QOne)].

(** [p.parse(in_str)] comes to an end: it returns or raises. *)
Definition terminates {RE : ReEngine} {PS : PyStr}
    (p : Parser) (in_str : string) : Prop :=
  exists fuel : nat, parse fuel p in_str <> OutOfFuel.

(** [p.parse(in_str)] never comes to an end. *)
Definition diverges {RE : ReEngine} {PS : PyStr}
    (p : Parser) (in_str : string) : Prop :=
  forall fuel : nat, parse fuel p in_str = OutOfFuel.

(** The progress condition on a child of a repetition: each [Success] it
    returns has a [rest] strictly shorter than the input it was given. *)
Definition makes_progress {RE : ReEngine} {PS : PyStr} (p : Parser) : Prop :=
  forall fuel in_str value rest,
    parse fuel p in_str = Returned (Success value rest) ->
    String.length rest < String.length in_str.

Definition is_SeqParser {RE : ReEngine} (p : Parser) : bool :=
  match p with SeqParser _ => true | _ => false end.

Definition is_OrParser {RE : ReEngine} (p : Parser) : bool :=
  match p with OrParser _ => true | _ => false end.

(** The children of a sequence or an alternation. *)
Definition children {RE : ReEngine} (p : Parser) : list Parser :=
  match p with
  | SeqParser parsers | OrParser parsers => parsers
  | _ => []
  end.

(** The list of values collected by the repetitions of [p] that succeed
    one after the other from [in_str], and the input left after the last
    of them, as a relation: [reps p in_str values rest]. *)
Inductive reps {RE : ReEngine} {PS : PyStr} (fuel : nat) (p : Parser)
  : string -> list Value -> string -> Prop :=
| reps_stop in_str expected rest' :
    parse fuel p in_str = Returned (Failure expected rest') ->
    reps fuel p in_str [] in_str
| reps_step in_str value rest values rest' :
    parse fuel p in_str = Returned (Success value rest) ->
    reps fuel p rest values rest' ->
    reps fuel p in_str (value :: values) rest'.

(** Two callables one after the other, as [w] applied twice runs them:
    the call raises when either does. *)
Definition compose_trans (f g : Trans) : Trans := fun v =>
  match f v with
  | Some v' => g v'
  | None => None
  end.

(** The tuple of a [Success] with [values] put in front; any other
    outcome is left as it is. *)
Definition extend_tuple (values : list Value) (a : Run Result) : Run Result :=
  match a with
  | Returned (Success (VTuple more) rest) =>
      Returned (Success (VTuple (values ++ more)%list) rest)
  | _ => a
  end.

(** Whether a [KleeneParser] occurs in a parser. *)
Fixpoint uses_KleeneParser {RE : ReEngine} (p : Parser) : bool :=
  match p with
  | ResultTransformingParser parser _ => uses_KleeneParser parser
  | SeqParser parsers | OrParser parsers => existsb uses_KleeneParser parsers
  | KleeneParser _ => true
  | RegexParser _ | LiteralParser _ => false
  end.

(** Whether a [ResultTransformingParser] occurs in a parser. *)
Fixpoint uses_trans {RE : ReEngine} (p : Parser) : bool :=
  match p with
  | ResultTransformingParser _ _ => true
  | SeqParser parsers | OrParser parsers => existsb uses_trans parsers
  | KleeneParser parser => uses_trans parser
  | RegexParser _ | LiteralParser _ => false
  end.

(** Every [Failure] of [p] carries the input [p] was given. *)
Definition failure_keeps_input {RE : ReEngine} {PS : PyStr} (p : Parser) : Prop :=
  forall fuel in_str expected rest,
    parse fuel p in_str = Returned (Failure expected rest) -> rest = in_str.

(** [p] returns a [Failure] on [in_str]. *)
Definition fails_on {RE : ReEngine} {PS : PyStr}
    (fuel : nat) (in_str : string) (p : Parser) : Prop :=
  exists expected rest, parse fuel p in_str = Returned (Failure expected rest).

(** Every repetition inside [p] has a child that consumes something at
    each success. *)
Inductive guarded {RE : ReEngine} {PS : PyStr} : Parser -> Prop :=
| guarded_trans parser trans :
    guarded parser -> guarded (ResultTransformingParser parser trans)
| guarded_seq parsers :
    Forall guarded parsers -> guarded (SeqParser parsers)
| guarded_or parsers :
    Forall guarded parsers -> guarded (OrParser parsers)
| guarded_kleene parser :
    makes_progress parser -> guarded parser -> guarded (KleeneParser parser)
| guarded_regex regex : guarded (RegexParser regex)
| guarded_literal s : guarded (LiteralParser s).

(** [s * n] in Python: [n] copies of [s]. *)
Fixpoint repeat_str (n : nat) (s : string) : string :=
  match n with
  | 0 => ""
  | S n' => s ++ repeat_str n' s
  end.

(* ================================================================== *)
(** ** Strings *)

Lemma slice_to_app (s x : string) : slice_to (String.length s) (s ++ x) = s.
Proof. induction s as [|c s IH]; simpl; [now destruct x | now rewrite IH]. Qed.

Lemma slice_from_app (s x : string) : slice_from (String.length s) (s ++ x) = x.
Proof. induction s as [|c s IH]; simpl; auto. Qed.

Lemma slice_to_from (n : nat) (s : string) : slice_to n s ++ slice_from n s = s.
Proof.
  revert s; induction n as [|n IH]; intros [|c s]; simpl; auto.
  now rewrite IH.
Qed.

Lemma startswith_app (s x : string) : startswith (s ++ x) s = true.
Proof.
  induction s as [|c s IH]; cbn [startswith append]; auto.
  now rewrite Ascii.eqb_refl, IH.
Qed.

Lemma startswith_prefix (y s : string) :
  startswith y s = true <-> exists x, y = s ++ x.
Proof.
  split.
  - revert y; induction s as [|c s IH]; intros y H; cbn [startswith append] in *.
    + now exists y.
    + destruct y as [|d y]; [discriminate|].
      apply andb_true_iff in H as [Hc Hs].
      apply Ascii.eqb_eq in Hc; subst d.
      destruct (IH _ Hs) as [x ->]. now exists x.
  - intros [x ->]. apply startswith_app.
Qed.

Lemma is_suffix_refl (s : string) : is_suffix s s.
Proof. now exists "". Qed.

Lemma string_app_assoc (a b c : string) : (a ++ b) ++ c = a ++ (b ++ c).
Proof. induction a as [|x a IH]; simpl; auto. now rewrite IH. Qed.

Lemma string_app_length (a b : string) :
  String.length (a ++ b) = String.length a + String.length b.
Proof. induction a as [|x a IH]; simpl; auto. Qed.

Lemma is_suffix_trans (a b c : string) :
  is_suffix a b -> is_suffix b c -> is_suffix a c.
Proof.
  intros [p ->] [q ->]. exists (q ++ p). now rewrite string_app_assoc.
Qed.

Lemma slice_from_suffix (n : nat) (s : string) : is_suffix (slice_from n s) s.
Proof. exists (slice_to n s). symmetry. apply slice_to_from. Qed.

Lemma is_suffix_length (rest s : string) :
  is_suffix rest s -> String.length rest <= String.length s.
Proof. intros [p ->]. rewrite string_app_length. lia. Qed.

Lemma is_suffix_same_length (rest s : string) :
  is_suffix rest s -> String.length rest = String.length s -> rest = s.
Proof.
  intros [p ->] H. rewrite string_app_length in H.
  destruct p; [reflexivity | simpl in H; lia].
Qed.

(* ================================================================== *)
(** ** Properties of the parsers *)

Section Properties.

Context {RE : ReEngine} {PS : PyStr}.

(** Induction on a parser, with the hypothesis for every child of a
    sequence and of an alternation. *)
Lemma Parser_induction (P : Parser -> Prop) :
  (forall parser trans, P parser -> P (ResultTransformingParser parser trans)) ->
  (forall parsers, Forall P parsers -> P (SeqParser parsers)) ->
  (forall parsers, Forall P parsers -> P (OrParser parsers)) ->
  (forall parser, P parser -> P (KleeneParser parser)) ->
  (forall regex, P (RegexParser regex)) ->
  (forall s, P (LiteralParser s)) ->
  forall p, P p.
Proof.
  intros HT HS HO HK HR HL.
  fix rec 1. intros [parser trans|parsers|parsers|parser|regex|s].
  - apply HT, rec.
  - apply HS. induction parsers as [|q qs IHqs]; constructor; [apply rec | exact IHqs].
  - apply HO. induction parsers as [|q qs IHqs]; constructor; [apply rec | exact IHqs].
  - apply HK, rec.
  - apply HR.
  - apply HL.
Qed.

(** *** More fuel does not change an answer *)

(** [g] answers as [f] wherever [f] answers. *)
Definition extends (f g : string -> Run Result) : Prop :=
  forall s, f s <> OutOfFuel -> g s = f s.

Lemma SeqParser_for_extends (f g : Parser -> string -> Run Result) parsers :
  Forall (fun p => extends (f p) (g p)) parsers ->
  forall values, extends (SeqParser_for f parsers values) (SeqParser_for g parsers values).
Proof.
  induction 1 as [|p ps Hp _ IH]; intros values s H; simpl in *; auto.
  destruct (f p s) as [[v rest|e rest]| |] eqn:E; simpl in H; try congruence;
    rewrite (Hp s) by congruence; rewrite E; simpl; auto.
  now apply IH.
Qed.

Lemma OrParser_for_extends (f g : Parser -> string -> Run Result) all in_str parsers :
  Forall (fun p => extends (f p) (g p)) parsers ->
  OrParser_for f all in_str parsers <> OutOfFuel ->
  OrParser_for g all in_str parsers = OrParser_for f all in_str parsers.
Proof.
  induction 1 as [|p ps Hp _ IH]; intros H; simpl in *; auto.
  destruct (f p in_str) as [[v rest|e rest]| |] eqn:E; simpl in H; try congruence;
    rewrite (Hp in_str) by congruence; rewrite E; simpl; auto.
Qed.

Lemma KleeneParser_while_extends (f g : string -> Run Result) :
  extends f g ->
  forall n m results result, n <= m ->
    KleeneParser_while f n results result <> OutOfFuel ->
    KleeneParser_while g m results result = KleeneParser_while f n results result.
Proof.
  intros Hfg. induction n as [|n IH]; intros [|m] results [v rest|e rest] Hle H;
    simpl in *; try congruence; try lia.
  destruct (f rest) as [r| |] eqn:E; simpl in H; try congruence;
    rewrite (Hfg rest) by congruence; rewrite E; simpl; auto.
  apply IH; [lia | exact H].
Qed.

Lemma Parser_parse_fuel (p : Parser) :
  forall n m, n <= m -> extends (Parser_parse n p) (Parser_parse m p).
Proof.
  induction p as [parser trans IH|parsers IH|parsers IH|parser IH|regex|s]
    using Parser_induction; intros n m Hle in_str H; simpl in *; auto.
  - unfold ResultTransformingParser_parse in *.
    destruct (Parser_parse n parser in_str) as [r| |] eqn:E; simpl in H; try congruence;
      rewrite (IH n m Hle in_str) by congruence; now rewrite E.
  - apply SeqParser_for_extends; auto.
    eapply Forall_impl; [|exact IH]. intros p Hp; apply Hp; exact Hle.
  - apply OrParser_for_extends; auto.
    eapply Forall_impl; [|exact IH]. intros p Hp; apply Hp; exact Hle.
  - unfold KleeneParser_parse in *.
    destruct (Parser_parse n parser in_str) as [r| |] eqn:E; simpl in H; try congruence;
      rewrite (IH n m Hle in_str) by congruence; rewrite E; simpl; auto.
    apply KleeneParser_while_extends; auto.
Qed.

Lemma parse_fuel (p : Parser) (in_str : string) (n m : nat) (a : Run Result) :
  n <= m -> parse n p in_str = a -> a <> OutOfFuel -> parse m p in_str = a.
Proof.
  unfold parse; intros Hle <- H. now apply Parser_parse_fuel with (n := n).
Qed.

(** *** The rest of a result is a suffix of the input *)

Definition rest_is_suffix (f : string -> Run Result) : Prop :=
  forall s result, f s = Returned result -> is_suffix (Result_rest result) s.

Lemma SeqParser_for_suffix (f : Parser -> string -> Run Result) parsers :
  Forall (fun p => rest_is_suffix (f p)) parsers ->
  forall values, rest_is_suffix (SeqParser_for f parsers values).
Proof.
  induction 1 as [|p ps Hp _ IH]; intros values s result H; simpl in H.
  - injection H as <-. apply is_suffix_refl.
  - destruct (f p s) as [[v rest|e rest]| |] eqn:E; simpl in H; try discriminate.
    + apply is_suffix_trans with (b := rest).
      * exact (IH _ _ _ H).
      * exact (Hp _ _ E).
    + injection H as <-. exact (Hp _ _ E).
Qed.

Lemma OrParser_for_suffix (f : Parser -> string -> Run Result) all in_str parsers :
  Forall (fun p => rest_is_suffix (f p)) parsers ->
  forall result, OrParser_for f all in_str parsers = Returned result ->
    is_suffix (Result_rest result) in_str.
Proof.
  induction 1 as [|p ps Hp _ IH]; intros result H; simpl in H.
  - injection H as <-. apply is_suffix_refl.
  - destruct (f p in_str) as [[v rest|e rest]| |] eqn:E; simpl in H; try discriminate.
    + injection H as <-. exact (Hp _ _ E).
    + exact (IH _ H).
Qed.

Lemma KleeneParser_while_suffix (f : string -> Run Result) :
  rest_is_suffix f ->
  forall n results result s final,
    is_suffix (Result_rest result) s ->
    KleeneParser_while f n results result = Returned final ->
    is_suffix (Result_rest final) s.
Proof.
  intros Hf. induction n as [|n IH]; intros results [v rest|e rest] s final Hs H;
    simpl in *; try discriminate; try (injection H as <-; exact Hs).
  destruct (f rest) as [r| |] eqn:E; simpl in H; try discriminate.
  apply (IH _ _ _ _ (is_suffix_trans _ _ _ (Hf _ _ E) Hs) H).
Qed.

Lemma Parser_parse_suffix (p : Parser) (fuel : nat) :
  rest_is_suffix (Parser_parse fuel p).
Proof.
  induction p as [parser trans IH|parsers IH|parsers IH|parser IH|regex|s]
    using Parser_induction; intros in_str result H; simpl in H.
  - unfold ResultTransformingParser_parse in H.
    destruct (Parser_parse fuel parser in_str) as [[v rest|e rest]| |] eqn:E;
      simpl in H; try discriminate.
    + destruct (trans v); [|discriminate]. injection H as <-. exact (IH _ _ E).
    + injection H as <-. exact (IH _ _ E).
  - exact (SeqParser_for_suffix _ _ IH _ _ _ H).
  - exact (OrParser_for_suffix _ _ _ _ IH _ H).
  - unfold KleeneParser_parse in H.
    destruct (Parser_parse fuel parser in_str) as [r| |] eqn:E;
      simpl in H; try discriminate.
    exact (KleeneParser_while_suffix _ IH _ _ _ _ _ (IH _ _ E) H).
  - unfold RegexParser_parse in H.
    destruct (Regex_match regex in_str); injection H as <-; simpl.
    + apply slice_from_suffix.
    + apply is_suffix_refl.
  - unfold LiteralParser_parse in H.
    destruct (startswith in_str s); injection H as <-; simpl.
    + apply slice_from_suffix.
    + apply is_suffix_refl.
Qed.

(** *** The loops of the sequence and of the alternation *)

(** A failure inside the loop of a sequence is not changed by parsers
    added at the end. *)
Lemma SeqParser_for_failure_app (f : Parser -> string -> Run Result)
    parsers more values in_str expected rest :
  SeqParser_for f parsers values in_str = Returned (Failure expected rest) ->
  SeqParser_for f (parsers ++ more) values in_str = Returned (Failure expected rest).
Proof.
  revert values in_str. induction parsers as [|p ps IH]; intros values in_str H;
    simpl in *; [discriminate|].
  destruct (f p in_str) as [[v r|e r]| |]; simpl in *; auto.
Qed.

(** The alternation returns the first success, after failures only. *)
Lemma OrParser_for_first_success (f : Parser -> string -> Run Result)
    all in_str before p after value rest :
  Forall (fun q => exists e r', f q in_str = Returned (Failure e r')) before ->
  f p in_str = Returned (Success value rest) ->
  OrParser_for f all in_str (before ++ p :: after) = Returned (Success value rest).
Proof.
  intros Hb Hp. induction Hb as [|q qs (e & r' & Hq) _ IH]; simpl.
  - now rewrite Hp.
  - now rewrite Hq.
Qed.

Lemma OrParser_for_all_fail (f : Parser -> string -> Run Result) all in_str parsers :
  Forall (fun q => exists e r', f q in_str = Returned (Failure e r')) parsers ->
  OrParser_for f all in_str parsers
  = Returned (Failure (EList (map Parser_str all)) in_str).
Proof.
  induction 1 as [|q qs (e & r' & Hq) _ IH]; simpl; auto.
  now rewrite Hq.
Qed.

(** *** The loop of the repetition *)

(** Once the child succeeds without consuming anything, the loop is
    back in the same state after each iteration. *)
Lemma KleeneParser_while_stuck (f : string -> Run Result) in_str value :
  f in_str = Returned (Success value in_str) ->
  forall n results, KleeneParser_while f n results (Success value in_str) = OutOfFuel.
Proof.
  intros Hf. induction n as [|n IH]; intros results; simpl; auto.
  rewrite Hf; simpl. apply IH.
Qed.

Lemma KleeneParser_stuck (p : Parser) (fuel0 : nat) in_str value :
  parse fuel0 p in_str = Returned (Success value in_str) ->
  forall fuel, parse fuel (rep p) in_str = OutOfFuel.
Proof.
  unfold parse, rep. intros H0 fuel; simpl. unfold KleeneParser_parse.
  assert (Hcase : Parser_parse fuel p in_str = OutOfFuel
                  \/ Parser_parse fuel p in_str = Returned (Success value in_str)).
  { destruct (Nat.le_ge_cases fuel fuel0) as [Hle|Hge].
    - destruct (Parser_parse fuel p in_str) as [r| |] eqn:E; auto; right;
        rewrite <- H0, <- E; symmetry;
        apply (Parser_parse_fuel p fuel fuel0 Hle); congruence.
    - right. rewrite <- H0.
      apply (Parser_parse_fuel p fuel0 fuel Hge). congruence. }
  destruct Hcase as [-> | E]; simpl; auto.
  rewrite E; simpl. now apply KleeneParser_while_stuck.
Qed.

(** With a child that comes to an end on every input and consumes
    something at each success, the loop comes to an end, given fuel
    enough. *)
Lemma KleeneParser_while_ends (p : Parser) :
  (forall s, terminates p s) -> makes_progress p ->
  forall k result,
    (forall value rest, result = Success value rest -> String.length rest < k) ->
    exists N, forall fuel n results, N <= fuel -> N <= n ->
      KleeneParser_while (Parser_parse fuel p) n results result <> OutOfFuel.
Proof.
  intros Hend Hprog. induction k as [|k IH]; intros [value rest|e rest] Hk.
  - specialize (Hk _ _ eq_refl). lia.
  - exists 0. intros fuel n results _ _. destruct n; simpl; discriminate.
  - specialize (Hk _ _ eq_refl).
    destruct (Hend rest) as [f1 Hf1]. unfold parse in Hf1.
    destruct (Parser_parse f1 p rest) as [r| |] eqn:E; [| |congruence].
    + destruct (IH r) as [N HN].
      { intros v' rest' ->. specialize (Hprog f1 rest v' rest' E). lia. }
      exists (Nat.max f1 (S N)). intros fuel [|n] results Hfuel Hn; [lia|].
      simpl. rewrite (Parser_parse_fuel p f1 fuel) by (try lia; congruence).
      rewrite E; simpl. apply HN; lia.
    + exists (Nat.max f1 1). intros fuel [|n] results Hfuel Hn; [lia|].
      simpl. rewrite (Parser_parse_fuel p f1 fuel) by (try lia; congruence).
      rewrite E; simpl. discriminate.
  - exists 0. intros fuel n results _ _. destruct n; simpl; discriminate.
Qed.

Lemma KleeneParser_ends (p : Parser) :
  (forall s, terminates p s) -> makes_progress p ->
  forall in_str, terminates (rep p) in_str.
Proof.
  intros Hend Hprog in_str.
  destruct (Hend in_str) as [f0 Hf0]. unfold parse in Hf0.
  destruct (Parser_parse f0 p in_str) as [r| |] eqn:E; [| |congruence].
  - destruct (KleeneParser_while_ends p Hend Hprog (S (String.length in_str)) r)
      as [N HN].
    { intros v rest ->.
      pose proof (is_suffix_length _ _ (Parser_parse_suffix p f0 _ _ E)) as Hlen.
      simpl in Hlen. lia. }
    exists (Nat.max f0 N). unfold parse, rep; simpl. unfold KleeneParser_parse.
    rewrite (Parser_parse_fuel p f0 _) by (try lia; congruence).
    rewrite E; simpl. apply HN; lia.
  - exists f0. unfold parse, rep; simpl. unfold KleeneParser_parse.
    rewrite E; simpl. discriminate.
Qed.

(** What the loop returns: the values of the repetitions that succeed
    one after the other, and the [rest] of the failure that ends them. *)
Lemma KleeneParser_while_returns (p : Parser) (fuel : nat) :
  forall n results cur result final,
    parse fuel p cur = Returned result ->
    KleeneParser_while (Parser_parse fuel p) n results result = Returned final ->
    exists values last expected rest',
      reps fuel p cur values last
      /\ parse fuel p last = Returned (Failure expected rest')
      /\ final = Success (VList (results ++ values)) rest'.
Proof.
  induction n as [|n IH]; intros results cur [v rest|e rest] final Hcur H;
    simpl in H; try discriminate.
  - injection H as <-. exists [], cur, e, rest. rewrite app_nil_r.
    repeat split; auto. now apply reps_stop with (expected := e) (rest' := rest).
  - destruct (Parser_parse fuel p rest) as [r| |] eqn:E; simpl in H; try discriminate.
    destruct (IH _ rest _ _ E H) as (values & last & e' & rest' & Hreps & Hlast & ->).
    exists (v :: values), last, e', rest'. rewrite <- app_assoc. simpl.
    repeat split; auto. now apply reps_step with (rest := rest).
  - injection H as <-. exists [], cur, e, rest. rewrite app_nil_r.
    repeat split; auto. now apply reps_stop with (expected := e) (rest' := rest).
Qed.

Lemma KleeneParser_parse_returns (p : Parser) (fuel : nat) in_str final :
  parse fuel (rep p) in_str = Returned final ->
  exists values last expected rest',
    reps fuel p in_str values last
    /\ parse fuel p last = Returned (Failure expected rest')
    /\ final = Success (VList values) rest'.
Proof.
  unfold parse at 1, rep; simpl. unfold KleeneParser_parse. intros H.
  destruct (Parser_parse fuel p in_str) as [r| |] eqn:E; simpl in H; try discriminate.
  exact (KleeneParser_while_returns p fuel _ _ _ _ _ E H).
Qed.

(** The empty literal succeeds on every input and consumes nothing. *)
Lemma LiteralParser_empty (fuel : nat) (in_str : string) :
  parse fuel (l "") in_str = Returned (Success (VStr "") in_str).
Proof. reflexivity. Qed.

Lemma never_returns_diverges (in_str : string) : diverges never_returns in_str.
Proof.
  intros fuel. apply KleeneParser_stuck with (fuel0 := 0) (value := VStr "").
  apply LiteralParser_empty.
Qed.

Lemma diverges_rep (p : Parser) (in_str : string) :
  diverges p in_str -> diverges (rep p) in_str.
Proof.
  intros H fuel. specialize (H fuel). unfold parse, rep in *; simpl.
  unfold KleeneParser_parse. now rewrite H.
Qed.

Lemma diverges_makes_progress (p : Parser) :
  (forall s, diverges p s) -> makes_progress p.
Proof. intros H fuel in_str value rest E. rewrite H in E. discriminate. Qed.

Lemma LiteralParser_terminates (s in_str : string) : terminates (l s) in_str.
Proof.
  exists 0. unfold parse, l; simpl. unfold LiteralParser_parse.
  destruct (startswith in_str s); discriminate.
Qed.

Lemma LiteralParser_makes_progress (c : ascii) (s : string) :
  makes_progress (l (String c s)).
Proof.
  intros fuel in_str value rest. unfold parse, l; simpl. unfold LiteralParser_parse.
  destruct (startswith in_str (String c s)) eqn:E; [|discriminate].
  apply startswith_prefix in E as [x ->]. intros H; injection H as _ <-.
  change (S (String.length s)) with (String.length (String c s)).
  rewrite slice_from_app, string_app_length. simpl. lia.
Qed.

Lemma Regex_search_from_found (regex : Regex) (in_str : string) :
  forall n pos m, Regex_search_from regex in_str n pos = Some m ->
    pos <= m_start m /\ re_match_at regex in_str (m_start m) = Some (m_end m).
Proof.
  induction n as [|n IH]; intros pos m H; simpl in H;
    destruct (re_match_at regex in_str pos) as [e|] eqn:E;
    try (injection H as <-; simpl; auto); try discriminate.
  destruct (IH _ _ H) as [Hle Hm]. split; [lia | exact Hm].
Qed.

(** *** The statements of the specification *)

(** C1, on the code: with the child [l("a").then(l("b"))] and the input
    ["abac"], one repetition succeeds and leaves ["ac"]; the next one
    fails inside the sequence, after the ["a"], with the rest ["c"].
    [KleeneParser.parse] returns the rest of that failure, ["c"], and
    not the input left after the last repetition that succeeded. *)
Theorem KleeneParser_rest_after_partial_match (fuel : nat) :
  parse (S fuel) (rep (then_ (l "a") (l "b"))) "abac"
  = Returned (Success (VList [VTuple [VStr "a"; VStr "b"]]) "c")
  /\ reps (S fuel) (then_ (l "a") (l "b")) "abac" [VTuple [VStr "a"; VStr "b"]] "ac"
  /\ parse (S fuel) (then_ (l "a") (l "b")) "ac" = Returned (Failure (EStr "b") "c").
Proof.
  split; [|split].
  - apply parse_fuel with (n := 1); [lia | reflexivity | discriminate].
  - apply reps_step with (rest := "ac"); [reflexivity|].
    apply reps_stop with (expected := EStr "b") (rest' := "c"). reflexivity.
  - reflexivity.
Qed.

(** C3: [OrParser.parse] gives each child the same input, in order, and
    returns the first [Success] as it is; when every child fails it
    returns one [Failure] whose [expected] lists [str] of each child, in
    order and one entry per child, and whose [rest] is the input of the
    alternation. *)
Theorem OrParser_parse_spec (fuel : nat) (parsers : list Parser) (in_str : string) :
  let fails q := exists e r', parse fuel q in_str = Returned (Failure e r') in
  (forall before p after value rest,
      parsers = (before ++ p :: after)%list ->
      Forall fails before ->
      parse fuel p in_str = Returned (Success value rest) ->
      parse fuel (OrParser parsers) in_str = Returned (Success value rest))
  /\ (Forall fails parsers ->
      parse fuel (OrParser parsers) in_str
      = Returned (Failure (EList (map Parser_str parsers)) in_str)
      /\ List.length (map Parser_str parsers) = List.length parsers)
  /\ (forall A B C, parsers = [A; B; C] -> Forall fails parsers ->
      parse fuel (OrParser parsers) in_str
      = Returned (Failure (EList [Parser_str A; Parser_str B; Parser_str C]) in_str)).
Proof.
  intros fails. split; [|split].
  - intros before p after value rest -> Hb Hp.
    now apply OrParser_for_first_success.
  - intros H. split; [|apply length_map].
    now apply OrParser_for_all_fail.
  - intros A B C -> H.
    exact (OrParser_for_all_fail (Parser_parse fuel) [A; B; C] in_str [A; B; C] H).
Qed.

(** C4: when [A] fails on an input, [A.then(B)] returns the very
    [Failure] of [A], whatever [B] is; so it does with a [B] whose
    [parse] returns on no input, which shows that [B] is not called. *)
Theorem then_propagates_failure
    (fuel : nat) (A B : Parser) (in_str : string) (expected : Expected) (rest : string) :
  parse fuel A in_str = Returned (Failure expected rest) ->
  parse fuel (then_ A B) in_str = Returned (Failure expected rest)
  /\ (forall s, diverges never_returns s)
  /\ parse fuel (then_ A never_returns) in_str = Returned (Failure expected rest).
Proof.
  intros HA.
  assert (Hany : forall B', parse fuel (then_ A B') in_str
                            = Returned (Failure expected rest)).
  { intros B'. unfold parse in *.
    destruct A as [parser trans|parsers|parsers|parser|regex|s];
      try (simpl in *; unfold SeqParser_parse; simpl; rewrite HA; reflexivity).
    simpl in *. now apply SeqParser_for_failure_app. }
  split; [apply Hany|]. split; [apply never_returns_diverges | apply Hany].
Qed.

(** C5: [literal(s)] succeeds on [s + x] with the value [s] and the rest
    [x]; on a [y] that does not start with [s] it fails with
    [expected = s] and [rest = y]; and it succeeds only on inputs that
    start with [s], character for character. *)
Theorem LiteralParser_parse_exact (fuel : nat) (s : string) :
  (forall x, parse fuel (l s) (s ++ x) = Returned (Success (VStr s) x))
  /\ (forall y, ~ (exists x, y = s ++ x) ->
      parse fuel (l s) y = Returned (Failure (EStr s) y))
  /\ (forall y value rest, parse fuel (l s) y = Returned (Success value rest) ->
      value = VStr s /\ y = s ++ rest).
Proof.
  unfold parse, l; simpl; unfold LiteralParser_parse. split; [|split].
  - intros x. now rewrite startswith_app, slice_to_app, slice_from_app.
  - intros y Hy. destruct (startswith y s) eqn:E; auto.
    apply startswith_prefix in E. contradiction.
  - intros y value rest. destruct (startswith y s) eqn:E; [|discriminate].
    apply startswith_prefix in E as [x ->].
    rewrite slice_to_app, slice_from_app. intros H; injection H as <- <-. auto.
Qed.

(** C6: [regex(p).parse(input)] looks for a match at index 0 only.  With
    a match ending at [e] it succeeds with the value [input[0:e]] and the
    rest [input[e:]]; without one it fails with the pattern text and the
    input unchanged, also when a search through the input would find a
    match, which then starts after index 0. *)
Theorem RegexParser_parse_anchored (fuel : nat) (regex : Regex) (in_str : string) :
  (forall e, re_match_at regex in_str 0 = Some e ->
      parse fuel (RegexParser regex) in_str
      = Returned (Success (VStr (slice 0 e in_str)) (slice_from e in_str))
      /\ slice 0 e in_str ++ slice_from e in_str = in_str)
  /\ (re_match_at regex in_str 0 = None ->
      parse fuel (RegexParser regex) in_str
      = Returned (Failure (EStr (re_pattern regex)) in_str))
  /\ (forall m, re_match_at regex in_str 0 = None ->
      Regex_search regex in_str = Some m ->
      0 < m_start m
      /\ parse fuel (RegexParser regex) in_str
         = Returned (Failure (EStr (re_pattern regex)) in_str)).
Proof.
  unfold parse; simpl; unfold RegexParser_parse, Regex_match. split; [|split].
  - intros e ->. unfold Match_group, Match_end, slice; simpl.
    rewrite ?Nat.sub_0_r. split; [reflexivity | apply slice_to_from].
  - now intros ->.
  - intros m H0 Hm. rewrite H0. split; [|reflexivity].
    apply Regex_search_from_found in Hm as [_ Hm].
    destruct (m_start m); [congruence | lia].
Qed.

(** C7: [then] on a sequence and [oor] on an alternation append the new
    child to the list of children, so that two calls in a row on a
    parser that is not itself a sequence (an alternation) build one
    parser with three children.  Both are functions to [Parser]: they
    do not call [parse] and have no failure. *)
Theorem then_oor_flat (A B C : Parser) (parsers : list Parser) :
  then_ (SeqParser parsers) C = SeqParser (parsers ++ [C])
  /\ oor (OrParser parsers) C = OrParser (parsers ++ [C])
  /\ (is_SeqParser A = false -> then_ (then_ A B) C = SeqParser [A; B; C])
  /\ (is_OrParser A = false -> oor (oor A B) C = OrParser [A; B; C])
  /\ children (then_ (then_ A B) C) = (children (then_ A B) ++ [C])%list
  /\ children (oor (oor A B) C) = (children (oor A B) ++ [C])%list.
Proof.
  split; [reflexivity|]. split; [reflexivity|].
  split; [destruct A; simpl; intros H; try discriminate; reflexivity|].
  split; [destruct A; simpl; intros H; try discriminate; reflexivity|].
  split; destruct A; reflexivity.
Qed.

(** C8, as amended: when the [parse] of the child comes to an end on
    every input and each [Success] it returns has consumed something,
    [repeat(X).parse] comes to an end on every input; and on an input
    on which the child succeeds without consuming anything,
    [repeat(X).parse] does not come to an end. *)
Theorem KleeneParser_termination (X : Parser) :
  ((forall s, terminates X s) -> makes_progress X ->
   forall in_str, terminates (rep X) in_str)
  /\ (forall fuel0 in_str value rest,
      parse fuel0 X in_str = Returned (Success value rest) ->
      String.length rest = String.length in_str ->
      diverges (rep X) in_str).
Proof.
  split.
  - apply KleeneParser_ends.
  - intros fuel0 in_str value rest H Hlen fuel.
    assert (rest = in_str) as ->.
    { apply is_suffix_same_length; auto.
      exact (Parser_parse_suffix X fuel0 _ _ H). }
    now apply KleeneParser_stuck with (fuel0 := fuel0) (value := value).
Qed.

(** C9: whenever the [parse] of a parser, whatever its class, returns a
    [Success], its [rest] is a suffix of the input of that call. *)
Theorem Success_rest_is_suffix
    (p : Parser) (fuel : nat) (in_str : string) (value : Value) (rest : string) :
  parse fuel p in_str = Returned (Success value rest) -> is_suffix rest in_str.
Proof. intros H. exact (Parser_parse_suffix p fuel _ _ H). Qed.

(** C10: [literal("")] succeeds on every input, the empty one included,
    with the value [""] and the whole input as rest; and the repetition
    of it does not come to an end on any input. *)
Theorem LiteralParser_empty_zero_width (fuel : nat) (in_str : string) :
  parse fuel (l "") in_str = Returned (Success (VStr "") in_str)
  /\ parse fuel (l "") "" = Returned (Success (VStr "") "")
  /\ diverges (rep (l "")) in_str.
Proof.
  split; [apply LiteralParser_empty|]. split; [apply LiteralParser_empty|].
  apply never_returns_diverges.
Qed.

End Properties.

(* ================================================================== *)
(** ** Scenarios *)

(** The accumulation example: three repetitions, then a failure at ["b"]. *)
Example rep_literal_aaab :
  parse 3 (rep (l "a")) "aaab"
  = Returned (Success (VList [VStr "a"; VStr "a"; VStr "a"]) "b").
Proof. reflexivity. Qed.

(** The first alternative that succeeds wins. *)
Example oor_first_match :
  parse 0 (oor (w (l "a") (fun _ => Some (VInt 1))) (w (l "a") (fun _ => Some (VInt 2)))) "ab"
  = Returned (Success (VInt 1) "b").
Proof. reflexivity. Qed.

(** A transformation that raises. *)
Example int_raises :
  parse 0 (w (l "x") int) "xy" = Raised.
Proof. reflexivity. Qed.

Lemma scenario_grammar_built :
  scenario_grammar
  = Some (SeqParser [l "(";
                     rep (w (RegexParser
                               (PyRe.mkRegex "[0-9]+"
                                  [(PyRe.AClass false [("0", "9")%char], PyRe.QPlus)]))
                            int);
                     l ")"]).
Proof. reflexivity. Qed.

Lemma scenario_run (PS : PyStr) (fuel : nat) (grammar : Parser) :
  scenario_grammar = Some grammar ->
  parse (S fuel) grammar "(12)(34)"
  = Returned (Success (VTuple [VStr "("; VList [VInt 12]; VStr ")"]) "(34)").
Proof.
  rewrite scenario_grammar_built. intros H; injection H as <-.
  apply parse_fuel with (n := 1); [lia | reflexivity | discriminate].
Qed.

(** C2, as amended: the grammar of the scenario is one sequence of three
    children, and on ["(12)(34)"] it returns the flat tuple
    [("(", [12], ")")] and the rest ["(34)"]. *)
Theorem scenario_flat_tuple (PS : PyStr) (fuel : nat) :
  exists grammar digits,
    scenario_grammar = Some grammar
    /\ r "[0-9]+" = Some digits
    /\ grammar = SeqParser [l "("; rep (w digits int); l ")"]
    /\ parse (S fuel) grammar "(12)(34)"
       = Returned (Success (VTuple [VStr "("; VList [VInt 12]; VStr ")"]) "(34)").
Proof.
  eexists; eexists. split; [exact scenario_grammar_built|].
  split; [reflexivity|]. split; [reflexivity|].
  apply scenario_run, scenario_grammar_built.
Qed.

(** C2, as stated, fails: the grammar never returns the nested tuple
    [(("(", [12]), ")")]. *)
Lemma scenario_not_nested :
  ~ (exists grammar fuel,
        scenario_grammar = Some grammar
        /\ parse (PS := Plain_str) fuel grammar "(12)(34)"
           = Returned (Success (VTuple [VTuple [VStr "("; VList [VInt 12]]; VStr ")"])
                               "(34)")).
Proof.
  intros (grammar & [|fuel] & Hg & H).
  - rewrite scenario_grammar_built in Hg. injection Hg as <-. discriminate H.
  - rewrite (scenario_run _ fuel grammar Hg) in H. discriminate H.
Qed.

(** C8, as stated, fails: the repetition of the empty literal returns no
    [Success] at all, so it meets the progress condition, and its
    repetition does not come to an end. *)
Lemma progress_alone_is_not_enough :
  ~ (makes_progress (PS := Plain_str) never_returns ->
     forall in_str, terminates (PS := Plain_str) (rep never_returns) in_str).
Proof.
  intros H.
  destruct (H (diverges_makes_progress _ never_returns_diverges) "") as [fuel Hf].
  apply Hf. apply diverges_rep, never_returns_diverges.
Qed.

(** ** Instances of the statements that have hypotheses *)

Lemma OrParser_parse_spec_witness :
  parse (PS := Plain_str) 0 (OrParser [l "a"; l "b"; l "c"]) "x"
  = Returned (Failure (EList ["LiteralParser(a)"; "LiteralParser(b)"; "LiteralParser(c)"]) "x")
  /\ parse (PS := Plain_str) 0 (OrParser [l "a"; l "b"; l "c"]) "bc"
     = Returned (Success (VStr "b") "c").
Proof.
  split.
  - refine (proj1 (proj1 (proj2 (OrParser_parse_spec 0 [l "a"; l "b"; l "c"] "x")) _)).
    repeat constructor; eexists; eexists; reflexivity.
  - apply (proj1 (OrParser_parse_spec 0 [l "a"; l "b"; l "c"] "bc")
             [l "a"] (l "b") [l "c"]).
    + reflexivity.
    + repeat constructor; eexists; eexists; reflexivity.
    + reflexivity.
Defined.

Lemma then_propagates_failure_witness :
  parse (PS := Plain_str) 0 (then_ (l "a") (l "b")) "ac" = Returned (Failure (EStr "b") "c")
  /\ parse (PS := Plain_str) 0 (then_ (then_ (l "a") (l "b")) (l "d")) "ac"
     = Returned (Failure (EStr "b") "c").
Proof.
  split; [reflexivity|].
  apply (then_propagates_failure 0 (then_ (l "a") (l "b")) (l "d") "ac" (EStr "b") "c").
  reflexivity.
Defined.

Lemma LiteralParser_parse_exact_witness :
  ~ (exists x, "ac" = "ab" ++ x)
  /\ parse (PS := Plain_str) 0 (l "ab") "ac" = Returned (Failure (EStr "ab") "ac").
Proof.
  assert (H : ~ (exists x, "ac" = "ab" ++ x)).
  { intros [x Hx]. discriminate Hx. }
  split; [exact H|].
  exact (proj1 (proj2 (LiteralParser_parse_exact 0 "ab")) "ac" H).
Defined.

Lemma RegexParser_parse_anchored_witness :
  re_compile "b" = Some regex_b
  /\ re_match_at regex_b "ab" 0 = None
  /\ Regex_search regex_b "ab" = Some (mkMatch "ab" 1 2)
  /\ parse (PS := Plain_str) 0 (RegexParser regex_b) "ab"
     = Returned (Failure (EStr "b") "ab").
Proof.
  split; [reflexivity|]. split; [reflexivity|]. split; [reflexivity|].
  apply (proj2 (proj2 (RegexParser_parse_anchored (PS := Plain_str) 0 regex_b "ab"))
           (mkMatch "ab" 1 2));
    reflexivity.
Defined.

Lemma then_oor_flat_witness :
  then_ (then_ (l "a") (l "b")) (l "c") = @SeqParser PyRe_engine [l "a"; l "b"; l "c"]
  /\ oor (oor (l "a") (l "b")) (l "c") = @OrParser PyRe_engine [l "a"; l "b"; l "c"].
Proof.
  split.
  - apply (proj1 (proj2 (proj2 (then_oor_flat (l "a") (l "b") (l "c") [])))).
    reflexivity.
  - apply (proj1 (proj2 (proj2 (proj2 (then_oor_flat (l "a") (l "b") (l "c") []))))).
    reflexivity.
Defined.

Lemma KleeneParser_termination_witness :
  terminates (PS := Plain_str) (rep (l "a")) "aaab"
  /\ diverges (PS := Plain_str) (rep (l "")) "x".
Proof.
  split.
  - apply (proj1 (KleeneParser_termination (l "a"))).
    + intros s. apply LiteralParser_terminates.
    + apply LiteralParser_makes_progress.
  - apply (proj2 (KleeneParser_termination (l "")) 0 "x" (VStr "") "x"); reflexivity.
Defined.

Lemma Success_rest_is_suffix_witness :
  parse (PS := Plain_str) 1 (rep (l "a")) "ab" = Returned (Success (VList [VStr "a"]) "b")
  /\ is_suffix "b" "ab".
Proof.
  split; [reflexivity|].
  apply (Success_rest_is_suffix (PS := Plain_str) (rep (l "a")) 1 "ab" (VList [VStr "a"]) "b").
  reflexivity.
Defined.

(* ================================================================== *)
(** ** Further properties of the parsers *)

Section Composition.

Context {RE : ReEngine} {PS : PyStr}.

(** *** Transformations *)

(** X1: two transformations one after the other are the transformation by
    the composed callable, and the callable that returns its argument
    changes nothing. *)
Theorem w_w_compose (fuel : nat) (X : Parser) (f g : Trans) (in_str : string) :
  parse fuel (w (w X f) g) in_str = parse fuel (w X (compose_trans f g)) in_str
  /\ parse fuel (w X Some) in_str = parse fuel X in_str.
Proof.
  unfold parse, w, compose_trans; simpl. unfold ResultTransformingParser_parse.
  split.
  - destruct (Parser_parse fuel X in_str) as [[v rest|e rest]| |]; simpl; auto.
    destruct (f v); reflexivity.
  - destruct (Parser_parse fuel X in_str) as [[v rest|e rest]| |]; reflexivity.
Qed.

(** *** Sequences *)

Lemma SeqParser_for_acc (f : Parser -> string -> Run Result) parsers :
  forall values in_str,
    SeqParser_for f parsers values in_str
    = extend_tuple values (SeqParser_for f parsers [] in_str).
Proof.
  induction parsers as [|p ps IH]; intros values in_str; simpl.
  - now rewrite app_nil_r.
  - destruct (f p in_str) as [[v rest|e rest]| |]; simpl; auto.
    rewrite (IH (values ++ [v])%list), (IH [v]).
    destruct (SeqParser_for f ps [] rest) as [[[ | |more| ] rest'|e rest']| |];
      simpl; auto.
    now rewrite <- app_assoc.
Qed.

Lemma SeqParser_for_app (f : Parser -> string -> Run Result) parsers more :
  forall values in_str,
    SeqParser_for f (parsers ++ more) values in_str
    = match SeqParser_for f parsers values in_str with
      | Returned (Success (VTuple values') rest) => SeqParser_for f more values' rest
      | a => a
      end.
Proof.
  induction parsers as [|p ps IH]; intros values in_str; simpl; auto.
  destruct (f p in_str) as [[v rest|e rest]| |]; simpl; auto.
Qed.

Lemma SeqParser_for_success (f : Parser -> string -> Run Result) parsers :
  forall values in_str value rest,
    SeqParser_for f parsers values in_str = Returned (Success value rest) ->
    exists values', value = VTuple values'
      /\ List.length values' = List.length values + List.length parsers.
Proof.
  induction parsers as [|p ps IH]; intros values in_str value rest H; simpl in H.
  - injection H as <- <-. exists values. split; [reflexivity | simpl; lia].
  - destruct (f p in_str) as [[v r|e r]| |]; simpl in H; try discriminate.
    destruct (IH _ _ _ _ H) as (values' & -> & Hlen).
    exists values'. split; [reflexivity|].
    rewrite Hlen, length_app. simpl. lia.
Qed.

(** X2: the value of a sequence that succeeds is a tuple with one entry for
    each of its parsers. *)
Theorem SeqParser_value_length
    (fuel : nat) (parsers : list Parser) (in_str : string) (value : Value) (rest : string) :
  parse fuel (SeqParser parsers) in_str = Returned (Success value rest) ->
  exists values, value = VTuple values /\ List.length values = List.length parsers.
Proof.
  intros H. exact (SeqParser_for_success _ _ _ _ _ _ H).
Qed.

(** X3: a sequence over [parsers + more] runs the sequence over [parsers] and
    then the one over [more] on what is left, and joins the two tuples; a
    failure of either part is the failure of the whole. *)
Theorem SeqParser_app (fuel : nat) (parsers more : list Parser) (in_str : string) :
  (forall values rest values' rest',
      parse fuel (SeqParser parsers) in_str = Returned (Success (VTuple values) rest) ->
      parse fuel (SeqParser more) rest = Returned (Success (VTuple values') rest') ->
      parse fuel (SeqParser (parsers ++ more)) in_str
      = Returned (Success (VTuple (values ++ values')) rest'))
  /\ (forall values rest expected rest',
      parse fuel (SeqParser parsers) in_str = Returned (Success (VTuple values) rest) ->
      parse fuel (SeqParser more) rest = Returned (Failure expected rest') ->
      parse fuel (SeqParser (parsers ++ more)) in_str
      = Returned (Failure expected rest'))
  /\ (forall expected rest,
      parse fuel (SeqParser parsers) in_str = Returned (Failure expected rest) ->
      parse fuel (SeqParser (parsers ++ more)) in_str
      = Returned (Failure expected rest)).
Proof.
  unfold parse; simpl; unfold SeqParser_parse. split; [|split].
  - intros values rest values' rest' H1 H2.
    now rewrite SeqParser_for_app, H1, SeqParser_for_acc, H2.
  - intros values rest expected rest' H1 H2.
    now rewrite SeqParser_for_app, H1, SeqParser_for_acc, H2.
  - intros expected rest H1. now rewrite SeqParser_for_app, H1.
Qed.

(** X4: when [A] and then [B] succeed, [A.then(B)] succeeds with the rest of
    [B]; its value is the pair of the two values when [A] is not a
    sequence, and the tuple of [A] with the value of [B] added at its end
    when [A] is one. *)
Theorem then_success
    (fuel : nat) (A B : Parser) (in_str : string) (a b : Value) (rest1 rest2 : string) :
  parse fuel A in_str = Returned (Success a rest1) ->
  parse fuel B rest1 = Returned (Success b rest2) ->
  (is_SeqParser A = false ->
   parse fuel (then_ A B) in_str = Returned (Success (VTuple [a; b]) rest2))
  /\ (is_SeqParser A = true ->
      exists values, a = VTuple values
        /\ parse fuel (then_ A B) in_str
           = Returned (Success (VTuple (values ++ [b])) rest2)).
Proof.
  unfold parse. intros HA HB. split; intros HS.
  - destruct A; try discriminate HS;
      simpl in *; unfold SeqParser_parse; simpl; rewrite HA; simpl; rewrite HB; reflexivity.
  - destruct A as [| parsers | | | |]; try discriminate HS.
    destruct (SeqParser_for_success _ _ _ _ _ _ HA) as (values & -> & _).
    exists values. split; [reflexivity|].
    simpl in *. unfold SeqParser_parse in *.
    rewrite SeqParser_for_app, HA. simpl. now rewrite HB.
Qed.

(** *** Alternations *)

Lemma OrParser_for_failure (f : Parser -> string -> Run Result) all in_str parsers :
  forall expected rest,
    OrParser_for f all in_str parsers = Returned (Failure expected rest) ->
    rest = in_str /\ expected = EList (map Parser_str all)
    /\ Forall (fun q => exists e r', f q in_str = Returned (Failure e r')) parsers.
Proof.
  induction parsers as [|p ps IH]; intros expected rest H; simpl in H.
  - injection H as <- <-. auto.
  - destruct (f p in_str) as [[v r|e r]| |] eqn:E; simpl in H; try discriminate.
    destruct (IH _ _ H) as (-> & -> & Hps).
    repeat split; auto. constructor; eauto.
Qed.

Lemma OrParser_for_success (f : Parser -> string -> Run Result) all in_str parsers :
  forall value rest,
    OrParser_for f all in_str parsers = Returned (Success value rest) ->
    exists before p after,
      parsers = (before ++ p :: after)%list
      /\ Forall (fun q => exists e r', f q in_str = Returned (Failure e r')) before
      /\ f p in_str = Returned (Success value rest).
Proof.
  induction parsers as [|p ps IH]; intros value rest H; simpl in H; [discriminate|].
  destruct (f p in_str) as [[v r|e r]| |] eqn:E; simpl in H; try discriminate.
  - injection H as <- <-. exists [], p, ps. auto.
  - destruct (IH _ _ H) as (before & q & after & -> & Hb & Hq).
    exists (p :: before), q, after. repeat split; auto. constructor; eauto.
Qed.

(** X5: what an alternation returns comes from its children: a [Success] is
    the [Success] of one child on the same input, every child before it
    having failed; a [Failure] means every child failed, and carries the
    input of the alternation and one description per child. *)
Theorem OrParser_parse_inversion (fuel : nat) (parsers : list Parser) (in_str : string) :
  (forall value rest,
      parse fuel (OrParser parsers) in_str = Returned (Success value rest) ->
      exists before p after,
        parsers = (before ++ p :: after)%list
        /\ Forall (fails_on fuel in_str) before
        /\ parse fuel p in_str = Returned (Success value rest))
  /\ (forall expected rest,
      parse fuel (OrParser parsers) in_str = Returned (Failure expected rest) ->
      rest = in_str /\ expected = EList (map Parser_str parsers)
      /\ Forall (fails_on fuel in_str) parsers).
Proof.
  split.
  - intros value rest H. exact (OrParser_for_success _ _ _ _ _ _ H).
  - intros expected rest H. exact (OrParser_for_failure _ _ _ _ _ _ H).
Qed.

(** X6: when [A] succeeds, [A.oor(B)] returns the [Success] of [A], whatever
    [B] is, also a [B] whose [parse] returns on no input. *)
Theorem oor_first_match_wins
    (fuel : nat) (A B : Parser) (in_str : string) (value : Value) (rest : string) :
  parse fuel A in_str = Returned (Success value rest) ->
  parse fuel (oor A B) in_str = Returned (Success value rest)
  /\ parse fuel (oor A never_returns) in_str = Returned (Success value rest).
Proof.
  intros HA.
  assert (Hany : forall B', parse fuel (oor A B') in_str = Returned (Success value rest)).
  { intros B'. unfold parse in *.
    destruct A as [parser trans|parsers|parsers|parser|regex|s];
      try (simpl in *; unfold OrParser_parse; simpl; rewrite HA; reflexivity).
    simpl in *. unfold OrParser_parse in *.
    destruct (OrParser_for_success _ _ _ _ _ _ HA) as (before & p & after & -> & Hb & Hp).
    rewrite <- app_assoc. simpl. now apply OrParser_for_first_success. }
  split; apply Hany.
Qed.

(** X7: when [A] fails, [A.oor(B)] gives [B] the input [A] was given, not the
    rest of the failure of [A]: a [Success] of [B] is returned as it is,
    and when [B] fails too the [Failure] lists the descriptions of all
    the children and carries that input. *)
Theorem oor_falls_back
    (fuel : nat) (A B : Parser) (in_str : string) (expected : Expected) (rest : string) :
  parse fuel A in_str = Returned (Failure expected rest) ->
  (forall value rest',
      parse fuel B in_str = Returned (Success value rest') ->
      parse fuel (oor A B) in_str = Returned (Success value rest'))
  /\ (forall expected' rest',
      parse fuel B in_str = Returned (Failure expected' rest') ->
      parse fuel (oor A B) in_str
      = Returned (Failure (EList (map Parser_str (children (oor A B)))) in_str)).
Proof.
  intros HA.
  assert (Hfails : Forall (fails_on fuel in_str)
                     (if is_OrParser A then children A else [A])).
  { destruct A as [parser trans|parsers|parsers|parser|regex|s]; simpl;
      try (constructor; [eexists; eexists; exact HA | constructor]).
    exact (proj2 (proj2 (OrParser_for_failure _ _ _ _ _ _ HA))). }
  assert (Heq : oor A B = OrParser ((if is_OrParser A then children A else [A]) ++ [B])).
  { destruct A; reflexivity. }
  rewrite Heq. split.
  - intros value rest' HB.
    now apply (OrParser_for_first_success (Parser_parse fuel)).
  - intros expected' rest' HB.
    apply (OrParser_for_all_fail (Parser_parse fuel)).
    apply Forall_app. split; [exact Hfails|].
    constructor; [eexists; eexists; exact HB | constructor].
Qed.

End Composition.

Section Repetition.

Context {RE : ReEngine} {PS : PyStr}.

Lemma reps_first_call (fuel : nat) (p : Parser) cur values last :
  reps fuel p cur values last -> exists result, parse fuel p cur = Returned result.
Proof. intros [in_str e r H | in_str v r vs r' H _]; eauto. Qed.

Lemma KleeneParser_while_counts (p : Parser) (fuel : nat) :
  forall n results cur result final,
    parse fuel p cur = Returned result ->
    KleeneParser_while (Parser_parse fuel p) n results result = Returned final ->
    exists values last expected rest',
      reps fuel p cur values last
      /\ parse fuel p last = Returned (Failure expected rest')
      /\ List.length values <= n
      /\ final = Success (VList (results ++ values)) rest'.
Proof.
  induction n as [|n IH]; intros results cur [v rest|e rest] final Hcur H;
    simpl in H; try discriminate.
  - injection H as <-. exists [], cur, e, rest. rewrite app_nil_r. simpl.
    repeat split; auto. now apply reps_stop with (expected := e) (rest' := rest).
  - destruct (Parser_parse fuel p rest) as [r| |] eqn:E; simpl in H; try discriminate.
    destruct (IH _ rest _ _ E H)
      as (values & last & e' & rest' & Hreps & Hlast & Hlen & ->).
    exists (v :: values), last, e', rest'. rewrite <- app_assoc. simpl.
    repeat split; auto; [|lia]. now apply reps_step with (rest := rest).
  - injection H as <-. exists [], cur, e, rest. rewrite app_nil_r. simpl.
    repeat split; auto; [|lia]. now apply reps_stop with (expected := e) (rest' := rest).
Qed.

Lemma KleeneParser_while_complete (p : Parser) (fuel : nat) cur values last :
  reps fuel p cur values last ->
  forall n results result expected rest',
    parse fuel p cur = Returned result ->
    parse fuel p last = Returned (Failure expected rest') ->
    List.length values <= n ->
    KleeneParser_while (Parser_parse fuel p) n results result
    = Returned (Success (VList (results ++ values)) rest').
Proof.
  induction 1 as [in_str e r Hstop | in_str v r vs r' Hstep Hreps IH];
    intros n results result expected rest' Hcur Hlast Hlen.
  - rewrite Hlast in Hcur. injection Hcur as <-. rewrite app_nil_r.
    destruct n; reflexivity.
  - rewrite Hstep in Hcur. injection Hcur as <-.
    destruct n as [|n]; [simpl in Hlen; lia|]. simpl.
    destruct (reps_first_call _ _ _ _ _ Hreps) as [result' E].
    unfold parse in E. rewrite E; simpl.
    rewrite (IH n (results ++ [v])%list result' expected rest' E Hlast)
      by (simpl in Hlen; lia).
    now rewrite <- app_assoc.
Qed.

Lemma KleeneParser_complete (fuel : nat) (X : Parser) in_str values last expected rest' :
  reps fuel X in_str values last ->
  parse fuel X last = Returned (Failure expected rest') ->
  List.length values <= fuel ->
  parse fuel (rep X) in_str = Returned (Success (VList values) rest').
Proof.
  intros Hreps Hlast Hlen.
  destruct (reps_first_call _ _ _ _ _ Hreps) as [result E].
  unfold parse at 1, rep; simpl. unfold KleeneParser_parse.
  unfold parse in E. rewrite E; simpl.
  exact (KleeneParser_while_complete X fuel _ _ _ Hreps _ [] _ _ _ E Hlast Hlen).
Qed.

(** X8: [repeat(X).parse] returns exactly when the child succeeds some number
    of times in a row, each time on what the time before left, and then
    fails: the value lists the values of those successes, in order, and
    the rest is the rest of that failure.  The loop runs once for each
    success. *)
Theorem KleeneParser_parse_iff
    (fuel : nat) (X : Parser) (in_str : string) (final : Result) :
  parse fuel (rep X) in_str = Returned final
  <-> exists values last expected rest',
        reps fuel X in_str values last
        /\ parse fuel X last = Returned (Failure expected rest')
        /\ List.length values <= fuel
        /\ final = Success (VList values) rest'.
Proof.
  split.
  - unfold parse at 1, rep; simpl. unfold KleeneParser_parse. intros H.
    destruct (Parser_parse fuel X in_str) as [r| |] eqn:E; simpl in H; try discriminate.
    exact (KleeneParser_while_counts X fuel _ _ _ _ _ E H).
  - intros (values & last & e & rest' & Hreps & Hlast & Hlen & ->).
    exact (KleeneParser_complete fuel X _ _ _ _ _ Hreps Hlast Hlen).
Qed.

(** X9: a repetition returns no [Failure], and with a child that returns no
    [Failure] it returns nothing at all; such are the empty literal, the
    empty sequence and any repetition, so a repetition of a repetition
    never returns. *)
Theorem rep_needs_a_failure (X : Parser) :
  (forall fuel in_str expected rest,
      parse fuel (rep X) in_str <> Returned (Failure expected rest))
  /\ ((forall fuel in_str expected rest,
          parse fuel X in_str <> Returned (Failure expected rest)) ->
      forall fuel in_str result, parse fuel (rep X) in_str <> Returned result)
  /\ (forall fuel in_str result, parse fuel (rep (rep X)) in_str <> Returned result).
Proof.
  assert (Hrep : forall Y fuel in_str expected rest,
             parse fuel (rep Y) in_str <> Returned (Failure expected rest)).
  { intros Y fuel in_str expected rest H.
    destruct (KleeneParser_parse_returns _ _ _ _ H) as (? & ? & ? & ? & _ & _ & Hf).
    discriminate Hf. }
  assert (Hnone : forall Y,
             (forall fuel in_str expected rest,
                 parse fuel Y in_str <> Returned (Failure expected rest)) ->
             forall fuel in_str result, parse fuel (rep Y) in_str <> Returned result).
  { intros Y HY fuel in_str result H.
    destruct (KleeneParser_parse_returns _ _ _ _ H) as (? & last & e & r & _ & Hlast & _).
    exact (HY _ _ _ _ Hlast). }
  split; [apply Hrep|]. split; [apply Hnone|].
  apply Hnone. apply Hrep.
Qed.

(** *** Parsers whose failures carry their input *)

Lemma LiteralParser_keeps_input (s : string) : failure_keeps_input (l s).
Proof.
  intros fuel in_str expected rest. unfold parse, l; simpl. unfold LiteralParser_parse.
  destruct (startswith in_str s); [discriminate|]. now intros H; injection H as _ <-.
Qed.

Lemma RegexParser_keeps_input (regex : Regex) : failure_keeps_input (RegexParser regex).
Proof.
  intros fuel in_str expected rest. unfold parse; simpl. unfold RegexParser_parse.
  destruct (Regex_match regex in_str); [discriminate|]. now intros H; injection H as _ <-.
Qed.

Lemma OrParser_keeps_input (parsers : list Parser) :
  failure_keeps_input (OrParser parsers).
Proof.
  intros fuel in_str expected rest H.
  exact (proj1 (OrParser_for_failure _ _ _ _ _ _ H)).
Qed.

(** X10: the literal, the regex and the alternation fail with the input they
    were given, and a transformation of such a parser does too.  For a
    child of that kind the rest of a repetition is the input left by the
    last repetition that succeeded. *)
Theorem KleeneParser_rest_is_last_input (X : Parser) :
  (forall s, failure_keeps_input (l s))
  /\ (forall regex, failure_keeps_input (RegexParser regex))
  /\ (forall parsers, failure_keeps_input (OrParser parsers))
  /\ (forall trans, failure_keeps_input X -> failure_keeps_input (w X trans))
  /\ (failure_keeps_input X ->
      forall fuel in_str final,
        parse fuel (rep X) in_str = Returned final ->
        exists values last,
          reps fuel X in_str values last /\ final = Success (VList values) last).
Proof.
  split; [exact LiteralParser_keeps_input|].
  split; [exact RegexParser_keeps_input|].
  split; [exact OrParser_keeps_input|]. split.
  - intros trans HX fuel in_str expected rest.
    unfold parse, w; simpl. unfold ResultTransformingParser_parse.
    destruct (Parser_parse fuel X in_str) as [[v r|e r]| |] eqn:E; simpl;
      try discriminate.
    + destruct (trans v); discriminate.
    + intros H; injection H as _ <-. exact (HX _ _ _ _ E).
  - intros HX fuel in_str final H.
    destruct (KleeneParser_parse_returns _ _ _ _ H)
      as (values & last & e & rest' & Hreps & Hlast & ->).
    rewrite (HX _ _ _ _ Hlast). now exists values, last.
Qed.

(** X11: [repeat(literal(s))] on [n] copies of [s] followed by an [x] that
    does not start with [s] returns the [n] copies and leaves [x]. *)
Theorem rep_literal_counts (fuel n : nat) (s x : string) :
  startswith x s = false -> n <= fuel ->
  parse fuel (rep (l s)) (repeat_str n s ++ x)
  = Returned (Success (VList (repeat (VStr s) n)) x).
Proof.
  intros Hx Hn.
  assert (Hfail : parse fuel (l s) x = Returned (Failure (EStr s) x)).
  { unfold parse, l; simpl. unfold LiteralParser_parse. now rewrite Hx. }
  assert (Hreps : reps fuel (l s) (repeat_str n s ++ x) (repeat (VStr s) n) x).
  { clear Hn. induction n as [|n IH]; simpl.
    - now apply reps_stop with (expected := EStr s) (rest' := x).
    - apply reps_step with (rest := repeat_str n s ++ x); [|exact IH].
      rewrite string_app_assoc. unfold parse, l; simpl. unfold LiteralParser_parse.
      now rewrite startswith_app, slice_to_app, slice_from_app. }
  apply (KleeneParser_complete fuel (l s) _ _ _ _ _ Hreps Hfail).
  now rewrite repeat_length.
Qed.

End Repetition.

Section Outcomes.

Context {RE : ReEngine} {PS : PyStr}.

(** X12: the rest of a [Failure] is a suffix of the input of the call, for a
    parser of any class: a failure is reported at the input or further on
    in it. *)
Theorem Failure_rest_is_suffix
    (p : Parser) (fuel : nat) (in_str : string) (expected : Expected) (rest : string) :
  parse fuel p in_str = Returned (Failure expected rest) -> is_suffix rest in_str.
Proof. intros H. exact (Parser_parse_suffix p fuel _ _ H). Qed.

Lemma existsb_false_Forall {A : Type} (f : A -> bool) (xs : list A) :
  existsb f xs = false -> Forall (fun x => f x = false) xs.
Proof.
  induction xs as [|x xs IH]; simpl; intros H; constructor;
    apply orb_false_iff in H as [Hx Hxs]; auto.
Qed.

Lemma Forall_modus_ponens {A : Type} (P Q : A -> Prop) (xs : list A) :
  Forall (fun x => P x -> Q x) xs -> Forall P xs -> Forall Q xs.
Proof.
  induction 1 as [|x xs Hx _ IH]; intros HP; constructor;
    inversion HP; subst; auto.
Qed.

(** *** Only the repetition loops *)

Lemma SeqParser_for_has_fuel (f : Parser -> string -> Run Result) parsers :
  Forall (fun p => forall s, f p s <> OutOfFuel) parsers ->
  forall values s, SeqParser_for f parsers values s <> OutOfFuel.
Proof.
  induction 1 as [|p ps Hp _ IH]; intros values s; simpl; [discriminate|].
  destruct (f p s) as [[v rest|e rest]| |] eqn:E; simpl;
    try discriminate; auto.
  destruct (Hp s E).
Qed.

Lemma OrParser_for_has_fuel (f : Parser -> string -> Run Result) all s parsers :
  Forall (fun p => forall s, f p s <> OutOfFuel) parsers ->
  OrParser_for f all s parsers <> OutOfFuel.
Proof.
  induction 1 as [|p ps Hp _ IH]; simpl; [discriminate|].
  destruct (f p s) as [[v rest|e rest]| |] eqn:E; simpl;
    try discriminate; auto.
  destruct (Hp s E).
Qed.

Lemma no_KleeneParser_has_fuel (p : Parser) :
  uses_KleeneParser p = false -> forall fuel s, Parser_parse fuel p s <> OutOfFuel.
Proof.
  induction p as [parser trans IH|parsers IH|parsers IH|parser IH|regex|s]
    using Parser_induction; simpl; intros Hp fuel in_str.
  - unfold ResultTransformingParser_parse.
    destruct (Parser_parse fuel parser in_str) as [[v rest|e rest]| |] eqn:E; simpl;
      try discriminate.
    + destruct (trans v); discriminate.
    + destruct (IH Hp fuel in_str E).
  - apply SeqParser_for_has_fuel.
    apply existsb_false_Forall in Hp. apply (Forall_modus_ponens _ _ _ IH) in Hp.
    eapply Forall_impl; [|exact Hp]. intros q Hq s. apply Hq.
  - apply OrParser_for_has_fuel.
    apply existsb_false_Forall in Hp. apply (Forall_modus_ponens _ _ _ IH) in Hp.
    eapply Forall_impl; [|exact Hp]. intros q Hq s. apply Hq.
  - discriminate Hp.
  - unfold RegexParser_parse. destruct (Regex_match regex in_str); discriminate.
  - unfold LiteralParser_parse. destruct (startswith in_str s); discriminate.
Qed.

(** X13: a parser in which no [KleeneParser] occurs comes to an end on every
    input: no bound on the loops is ever reached, and the answer does not
    depend on the bound. *)
Theorem no_KleeneParser_terminates (p : Parser) (fuel : nat) (in_str : string) :
  uses_KleeneParser p = false ->
  parse fuel p in_str <> OutOfFuel /\ parse fuel p in_str = parse 0 p in_str.
Proof.
  intros Hp. split.
  - now apply no_KleeneParser_has_fuel.
  - apply (Parser_parse_fuel p 0 fuel); [lia|]. now apply no_KleeneParser_has_fuel.
Qed.

(** *** Only a transformation raises *)

Lemma SeqParser_for_no_raise (f : Parser -> string -> Run Result) parsers :
  Forall (fun p => forall s, f p s <> Raised) parsers ->
  forall values s, SeqParser_for f parsers values s <> Raised.
Proof.
  induction 1 as [|p ps Hp _ IH]; intros values s; simpl; [discriminate|].
  destruct (f p s) as [[v rest|e rest]| |] eqn:E; simpl;
    try discriminate; auto.
  destruct (Hp s E).
Qed.

Lemma OrParser_for_no_raise (f : Parser -> string -> Run Result) all s parsers :
  Forall (fun p => forall s, f p s <> Raised) parsers ->
  OrParser_for f all s parsers <> Raised.
Proof.
  induction 1 as [|p ps Hp _ IH]; simpl; [discriminate|].
  destruct (f p s) as [[v rest|e rest]| |] eqn:E; simpl;
    try discriminate; auto.
  destruct (Hp s E).
Qed.

Lemma KleeneParser_while_no_raise (f : string -> Run Result) :
  (forall s, f s <> Raised) ->
  forall n results result, KleeneParser_while f n results result <> Raised.
Proof.
  intros Hf. induction n as [|n IH]; intros results [v rest|e rest]; simpl;
    try discriminate.
  destruct (f rest) as [r| |] eqn:E; simpl; try discriminate; auto.
  destruct (Hf rest E).
Qed.

(** X14: a parser in which no [ResultTransformingParser] occurs raises on no
    input: what it cannot match it reports by a [Failure]. *)
Theorem no_trans_never_raises (p : Parser) (fuel : nat) (in_str : string) :
  uses_trans p = false -> parse fuel p in_str <> Raised.
Proof.
  unfold parse. revert in_str.
  induction p as [parser trans IH|parsers IH|parsers IH|parser IH|regex|s]
    using Parser_induction; simpl; intros in_str Hp.
  - discriminate Hp.
  - apply SeqParser_for_no_raise.
    apply existsb_false_Forall in Hp.
    assert (H : Forall (fun q => forall s, Parser_parse fuel q s <> Raised) parsers).
    { apply (Forall_modus_ponens (fun q => uses_trans q = false)); [|exact Hp].
      eapply Forall_impl; [|exact IH]. intros q Hq Hu s. now apply Hq. }
    exact H.
  - apply OrParser_for_no_raise.
    apply existsb_false_Forall in Hp.
    assert (H : Forall (fun q => forall s, Parser_parse fuel q s <> Raised) parsers).
    { apply (Forall_modus_ponens (fun q => uses_trans q = false)); [|exact Hp].
      eapply Forall_impl; [|exact IH]. intros q Hq Hu s. now apply Hq. }
    exact H.
  - unfold KleeneParser_parse.
    destruct (Parser_parse fuel parser in_str) as [r| |] eqn:E; simpl;
      try discriminate.
    + apply KleeneParser_while_no_raise. intros s. now apply IH.
    + destruct (IH in_str Hp E).
  - unfold RegexParser_parse. destruct (Regex_match regex in_str); discriminate.
  - unfold LiteralParser_parse. destruct (startswith in_str s); discriminate.
Qed.

(** *** Parsers without children *)

(** X15: the sequence of no parsers succeeds on every input with the empty
    tuple and the whole input, and the alternation of no parsers fails on
    every input with no description; so the repetition of the first
    never comes to an end, and the repetition of the second returns the
    empty list at once. *)
Theorem no_children (fuel : nat) (in_str : string) :
  parse fuel (SeqParser []) in_str = Returned (Success (VTuple []) in_str)
  /\ parse fuel (OrParser []) in_str = Returned (Failure (EList []) in_str)
  /\ diverges (rep (SeqParser [])) in_str
  /\ parse fuel (rep (OrParser [])) in_str = Returned (Success (VList []) in_str).
Proof.
  split; [reflexivity|]. split; [reflexivity|].
  split; [|destruct fuel; reflexivity].
  intros n. now apply KleeneParser_stuck with (fuel0 := 0) (value := VTuple []).
Qed.

End Outcomes.

Section Termination.

Context {RE : ReEngine} {PS : PyStr}.

Lemma Parser_parse_extends_all (n m : nat) (parsers : list Parser) :
  n <= m ->
  Forall (fun p => extends (Parser_parse n p) (Parser_parse m p)) parsers.
Proof.
  intros Hle. apply Forall_forall. intros p _. now apply Parser_parse_fuel.
Qed.

Lemma SeqParser_for_ends (parsers : list Parser) :
  Forall (fun p => forall s, terminates p s) parsers ->
  forall values s, exists fuel,
    SeqParser_for (Parser_parse fuel) parsers values s <> OutOfFuel.
Proof.
  induction 1 as [|p ps Hp _ IH]; intros values s.
  - exists 0. discriminate.
  - destruct (Hp s) as [f1 Hf1]. unfold parse in Hf1.
    destruct (Parser_parse f1 p s) as [[v rest|e rest]| |] eqn:E; [| | |congruence].
    + destruct (IH (values ++ [v])%list rest) as [f2 Hf2].
      exists (Nat.max f1 f2). simpl.
      rewrite (Parser_parse_fuel p f1 _) by (try lia; congruence). rewrite E; simpl.
      rewrite (SeqParser_for_extends (Parser_parse f2) _ ps); auto.
      apply Parser_parse_extends_all. lia.
    + exists f1. simpl. rewrite E. discriminate.
    + exists f1. simpl. rewrite E. discriminate.
Qed.

Lemma OrParser_for_ends (all parsers : list Parser) (s : string) :
  Forall (fun p => forall s, terminates p s) parsers ->
  exists fuel, OrParser_for (Parser_parse fuel) all s parsers <> OutOfFuel.
Proof.
  induction 1 as [|p ps Hp _ IH].
  - exists 0. discriminate.
  - destruct (Hp s) as [f1 Hf1]. unfold parse in Hf1.
    destruct (Parser_parse f1 p s) as [[v rest|e rest]| |] eqn:E; [| | |congruence].
    + exists f1. simpl. rewrite E. discriminate.
    + destruct IH as [f2 Hf2].
      exists (Nat.max f1 f2). simpl.
      rewrite (Parser_parse_fuel p f1 _) by (try lia; congruence). rewrite E; simpl.
      rewrite (OrParser_for_extends (Parser_parse f2) _ all s ps); auto.
      apply Parser_parse_extends_all. lia.
    + exists f1. simpl. rewrite E. discriminate.
Qed.

(** X16: a parser in which the child of every repetition consumes something
    at each success comes to an end on every input. *)
Theorem guarded_terminates (p : Parser) :
  guarded p -> forall in_str, terminates p in_str.
Proof.
  induction p as [parser trans IH|parsers IH|parsers IH|parser IH|regex|s]
    using Parser_induction; intros Hg in_str; inversion Hg; subst.
  - destruct (IH H0 in_str) as [fuel Hf]. exists fuel.
    unfold parse in *; simpl. unfold ResultTransformingParser_parse.
    destruct (Parser_parse fuel parser in_str) as [[v rest|e rest]| |];
      simpl; try discriminate; [|congruence].
    destruct (trans v); discriminate.
  - apply (SeqParser_for_ends parsers).
    exact (Forall_modus_ponens _ _ _ IH H0).
  - apply (OrParser_for_ends parsers parsers).
    exact (Forall_modus_ponens _ _ _ IH H0).
  - apply KleeneParser_ends; auto.
  - exists 0. unfold parse; simpl. unfold RegexParser_parse.
    destruct (Regex_match regex in_str); discriminate.
  - apply LiteralParser_terminates.
Qed.

Lemma SeqParser_for_length (f : Parser -> string -> Run Result) parsers :
  Forall (fun p => rest_is_suffix (f p)) parsers ->
  forall values s v rest,
    SeqParser_for f parsers values s = Returned (Success v rest) ->
    String.length rest <= String.length s.
Proof.
  intros H values s v rest E.
  exact (is_suffix_length _ _ (SeqParser_for_suffix f parsers H values s _ E)).
Qed.

Lemma Parser_parse_suffix_all (fuel : nat) (parsers : list Parser) :
  Forall (fun p => rest_is_suffix (Parser_parse fuel p)) parsers.
Proof. apply Forall_forall. intros p _. apply Parser_parse_suffix. Qed.

(** X17: parsers that consume something at each success: a literal that is
    not empty, a transformation or an alternation of such parsers, and a
    sequence with at least one such parser among its children. *)
Theorem makes_progress_classes :
  (forall c s, makes_progress (l (String c s)))
  /\ (forall X trans, makes_progress X -> makes_progress (w X trans))
  /\ (forall parsers, Forall makes_progress parsers -> makes_progress (OrParser parsers))
  /\ (forall parsers, Exists makes_progress parsers -> makes_progress (SeqParser parsers)).
Proof.
  split; [exact LiteralParser_makes_progress|]. split; [|split].
  - intros X trans HX fuel in_str value rest. unfold parse, w; simpl.
    unfold ResultTransformingParser_parse.
    destruct (Parser_parse fuel X in_str) as [[v r|e r]| |] eqn:E; simpl;
      try discriminate.
    destruct (trans v); [|discriminate].
    intros H; injection H as _ <-. exact (HX _ _ _ _ E).
  - intros parsers Hps fuel in_str value rest H.
    destruct (OrParser_for_success _ _ _ _ _ _ H) as (before & p & after & -> & _ & Hp).
    apply Forall_app in Hps as [_ Hps]. inversion Hps; subst.
    match goal with Hprog : makes_progress p |- _ => exact (Hprog _ _ _ _ Hp) end.
  - intros parsers Hps fuel in_str value rest. unfold parse; simpl.
    unfold SeqParser_parse. generalize (@nil Value) as values. revert in_str.
    induction Hps as [p ps Hp | p ps _ IH]; intros in_str values H; simpl in H;
      destruct (Parser_parse fuel p in_str) as [[v r|e r]| |] eqn:E; simpl in H;
      try discriminate.
    + pose proof (Hp _ _ _ _ E) as Hlt.
      pose proof (SeqParser_for_length _ ps (Parser_parse_suffix_all fuel ps) _ _ _ _ H).
      lia.
    + pose proof (is_suffix_length _ _ (Parser_parse_suffix p fuel _ _ E)) as Hle.
      simpl in Hle. specialize (IH _ _ H). lia.
Qed.

End Termination.

(** ** Instances of the further properties *)

Lemma SeqParser_value_length_witness :
  parse (PS := Plain_str) 0 (SeqParser [l "a"; l "b"]) "abc"
  = Returned (Success (VTuple [VStr "a"; VStr "b"]) "c")
  /\ exists values, VTuple [VStr "a"; VStr "b"] = VTuple values /\ List.length values = 2.
Proof.
  split; [reflexivity|].
  apply (SeqParser_value_length (PS := Plain_str) 0 [l "a"; l "b"] "abc" _ "c").
  reflexivity.
Defined.

Lemma SeqParser_app_witness :
  parse (PS := Plain_str) 0 (SeqParser ([l "a"] ++ [l "b"])) "abc"
  = Returned (Success (VTuple ([VStr "a"] ++ [VStr "b"])) "c")
  /\ parse (PS := Plain_str) 0 (SeqParser ([l "a"] ++ [l "b"])) "acb"
     = Returned (Failure (EStr "b") "cb").
Proof.
  split.
  - apply (proj1 (SeqParser_app (PS := Plain_str) 0 [l "a"] [l "b"] "abc")
             [VStr "a"] "bc" [VStr "b"] "c"); reflexivity.
  - apply (proj1 (proj2 (SeqParser_app (PS := Plain_str) 0 [l "a"] [l "b"] "acb"))
             [VStr "a"] "cb" (EStr "b") "cb"); reflexivity.
Defined.

Lemma then_success_witness :
  parse (PS := Plain_str) 0 (then_ (l "a") (l "b")) "abc"
  = Returned (Success (VTuple [VStr "a"; VStr "b"]) "c")
  /\ exists values,
       VTuple [VStr "a"; VStr "b"] = VTuple values
       /\ parse (PS := Plain_str) 0 (then_ (then_ (l "a") (l "b")) (l "c")) "abc"
          = Returned (Success (VTuple (values ++ [VStr "c"])) "").
Proof.
  split.
  - apply (proj1 (then_success (PS := Plain_str) 0 (l "a") (l "b") "abc"
                    (VStr "a") (VStr "b") "bc" "c" eq_refl eq_refl)).
    reflexivity.
  - apply (proj2 (then_success (PS := Plain_str) 0 (then_ (l "a") (l "b")) (l "c") "abc"
                    (VTuple [VStr "a"; VStr "b"]) (VStr "c") "c" "" eq_refl eq_refl)).
    reflexivity.
Defined.

Lemma OrParser_parse_inversion_witness :
  "x" = "x"
  /\ EList ["LiteralParser(a)"; "LiteralParser(b)"]
     = EList (map (Parser_str (PS := Plain_str)) [l "a"; l "b"])
  /\ Forall (fails_on (PS := Plain_str) 0 "x") [l "a"; l "b"].
Proof.
  apply (proj2 (OrParser_parse_inversion (PS := Plain_str) 0 [l "a"; l "b"] "x")).
  reflexivity.
Defined.

Lemma oor_first_match_wins_witness :
  parse (PS := Plain_str) 0 (oor (l "a") (l "ab")) "ab" = Returned (Success (VStr "a") "b")
  /\ parse (PS := Plain_str) 0 (oor (l "a") never_returns) "ab"
     = Returned (Success (VStr "a") "b").
Proof.
  apply (oor_first_match_wins (PS := Plain_str) 0 (l "a") (l "ab") "ab" (VStr "a") "b").
  reflexivity.
Defined.

Lemma oor_falls_back_witness :
  parse (PS := Plain_str) 0 (then_ (l "a") (l "b")) "ac" = Returned (Failure (EStr "b") "c")
  /\ parse (PS := Plain_str) 0 (oor (then_ (l "a") (l "b")) (l "ac")) "ac"
     = Returned (Success (VStr "ac") "").
Proof.
  split; [reflexivity|].
  apply (proj1 (oor_falls_back (PS := Plain_str) 0 (then_ (l "a") (l "b")) (l "ac") "ac"
                  (EStr "b") "c" eq_refl)).
  reflexivity.
Defined.

Lemma KleeneParser_parse_iff_witness :
  exists values last expected rest',
    reps (PS := Plain_str) 2 (l "a") "aab" values last
    /\ parse (PS := Plain_str) 2 (l "a") last = Returned (Failure expected rest')
    /\ List.length values <= 2
    /\ Success (VList [VStr "a"; VStr "a"]) "b" = Success (VList values) rest'.
Proof.
  apply (proj1 (KleeneParser_parse_iff (PS := Plain_str) 2 (l "a") "aab"
                  (Success (VList [VStr "a"; VStr "a"]) "b"))).
  reflexivity.
Defined.

Lemma rep_needs_a_failure_witness :
  parse (PS := Plain_str) 5 (rep (l "")) "x" <> Returned (Success (VList []) "x").
Proof.
  apply (proj1 (proj2 (rep_needs_a_failure (PS := Plain_str) (l "")))).
  intros fuel in_str expected rest H.
  rewrite LiteralParser_empty in H. discriminate H.
Defined.

Lemma KleeneParser_rest_is_last_input_witness :
  exists values last,
    reps (PS := Plain_str) 2 (l "a") "aab" values last
    /\ Success (VList [VStr "a"; VStr "a"]) "b" = Success (VList values) last.
Proof.
  apply (proj2 (proj2 (proj2 (proj2
           (KleeneParser_rest_is_last_input (PS := Plain_str) (l "a")))))
           (LiteralParser_keeps_input "a") 2 "aab").
  reflexivity.
Defined.

Lemma rep_literal_counts_witness :
  startswith "a" "ab" = false
  /\ parse (PS := Plain_str) 2 (rep (l "ab")) (repeat_str 2 "ab" ++ "a")
     = Returned (Success (VList (repeat (VStr "ab") 2)) "a").
Proof.
  split; [reflexivity|].
  apply (rep_literal_counts (PS := Plain_str) 2 2 "ab" "a"); [reflexivity | lia].
Defined.

Lemma Failure_rest_is_suffix_witness :
  parse (PS := Plain_str) 0 (then_ (l "a") (l "b")) "ac" = Returned (Failure (EStr "b") "c")
  /\ is_suffix "c" "ac".
Proof.
  split; [reflexivity|].
  apply (Failure_rest_is_suffix (PS := Plain_str) (then_ (l "a") (l "b")) 0 "ac" (EStr "b") "c").
  reflexivity.
Defined.

Lemma no_KleeneParser_terminates_witness :
  parse (PS := Plain_str) 7 (oor (then_ (l "a") (l "b")) (l "c")) "ab" <> OutOfFuel
  /\ parse (PS := Plain_str) 7 (oor (then_ (l "a") (l "b")) (l "c")) "ab"
     = parse (PS := Plain_str) 0 (oor (then_ (l "a") (l "b")) (l "c")) "ab".
Proof.
  apply (no_KleeneParser_terminates (PS := Plain_str)
           (oor (then_ (l "a") (l "b")) (l "c")) 7 "ab").
  reflexivity.
Defined.

Lemma no_trans_never_raises_witness :
  parse (PS := Plain_str) 3 (rep (then_ (l "a") (l "b"))) "abab" <> Raised.
Proof.
  apply (no_trans_never_raises (PS := Plain_str) (rep (then_ (l "a") (l "b"))) 3 "abab").
  reflexivity.
Defined.

Lemma guarded_terminates_witness :
  terminates (PS := Plain_str) (then_ (rep (l "a")) (l "b")) "aab".
Proof.
  apply (guarded_terminates (PS := Plain_str) (then_ (rep (l "a")) (l "b"))).
  apply guarded_seq. repeat constructor.
  apply LiteralParser_makes_progress.
Defined.

Lemma makes_progress_classes_witness :
  makes_progress (PS := Plain_str) (SeqParser [l ""; l "a"])
  /\ makes_progress (PS := Plain_str) (OrParser [l "a"; l "b"]).
Proof.
  split.
  - apply (proj2 (proj2 (proj2 (makes_progress_classes (PS := Plain_str))))).
    apply Exists_cons_tl, Exists_cons_hd. apply LiteralParser_makes_progress.
  - apply (proj1 (proj2 (proj2 (makes_progress_classes (PS := Plain_str))))).
    repeat constructor; apply LiteralParser_makes_progress.
Defined.
